(** * Offline caching and synchronisation layer of Planning Precedent AI

    A shallow embedding of the service worker (the worker script with the
    install/activate/fetch/sync/push listeners), of the IndexedDB helpers of
    [frontend/src/lib/pwa.ts] and of the persisted stores of
    [src/lib/store.ts], followed by the properties of the specification that
    concern them.

    The browser state that the code reads and writes (cache storage, the
    IndexedDB database, the network, the clients) is threaded explicitly
    through a small state-and-exception monad. *)

From stdpp Require Import gmap strings list fin_maps.
From Stdlib Require Import ZArith NArith Lia Ascii.

Local Open Scope string_scope.
Local Open Scope Z_scope.
Local Open Scope list_scope.

(* ===================================================================== *)
(** * Requests, responses, and the browser state *)
(* ===================================================================== *)

Inductive Method := GET | HEAD | POST | PUT | DELETE | PATCH | OPTIONS.

Inductive Mode := navigate | same_origin | no_cors | cors.

#[global] Instance Method_eq_dec : EqDecision Method.
Proof. solve_decision. Defined.

#[global] Instance Mode_eq_dec : EqDecision Mode.
Proof. solve_decision. Defined.

Definition Method_to_nat (m : Method) : nat :=
  match m with
  | GET => 0 | HEAD => 1 | POST => 2 | PUT => 3
  | DELETE => 4 | PATCH => 5 | OPTIONS => 6
  end%nat.

Definition Method_of_nat (n : nat) : option Method :=
  match n with
  | 0 => Some GET | 1 => Some HEAD | 2 => Some POST | 3 => Some PUT
  | 4 => Some DELETE | 5 => Some PATCH | 6 => Some OPTIONS
  | _ => None
  end%nat.

#[global] Instance Method_countable : Countable Method.
Proof.
  apply (inj_countable Method_to_nat Method_of_nat).
  intros []; reflexivity.
Defined.

(** A request as the fetch listener sees it: [new URL(request.url)] split
    into origin, pathname and query string, plus method, mode and body. *)
Record Request := mkRequest {
  req_origin : string;
  req_pathname : string;
  req_search : string;
  req_method : Method;
  req_mode : Mode;
  req_body : string
}.

Record Response := mkResponse {
  status : Z;
  content_type : string;
  body : string
}.

(** [Response.ok]: the status is in the range 200-299. *)
Definition ok (r : Response) : bool :=
  (200 <=? status r) && (status r <=? 299).

(** Identity of a cached response: method and URL (query included). *)
Abbreviation CacheKey := (Method * string)%type.

Definition request_url (req : Request) : string :=
  req_origin req +:+ req_pathname req +:+ req_search req.

Definition request_key (req : Request) : CacheKey :=
  (req_method req, request_url req).

(** One cache generation: a named map from request identity to response. *)
Abbreviation Cache := (gmap CacheKey Response).

(** [caches]: the generations in creation order. *)
Abbreviation CacheStorage := (list (string * Cache)).

(** What the network answers to one [fetch]: the promise rejects (no
    connectivity) or resolves with a response of any status. *)
Inductive FetchResult :=
  | NetworkDown
  | Responds (r : Response).

(** ** The IndexedDB database [PlanningPrecedentAI] *)

(** A record of the object store [pending-actions]
    ([keyPath: 'id', autoIncrement: true]). *)
Record PendingAction := mkPendingAction {
  pa_id : N;
  pa_type : string;
  pa_data : string;
  pa_timestamp : N
}.

(** A record of the object store [saved-cases-offline]
    ([keyPath: 'reference']): the spread case data and [savedAt]. *)
Record OfflineCase := mkOfflineCase {
  oc_reference : string;
  oc_fields : string;
  oc_savedAt : N
}.

Record Database := mkDatabase {
  db_key_generator : N;
  db_pending : list PendingAction;
  db_saved_cases : gmap string OfflineCase
}.

(** ** Notifications *)

Record Notification := mkNotification {
  n_title : option string;
  n_body : option string;
  n_icon : string;
  n_badge : string;
  n_vibrate : list N;
  n_data : string;
  n_actions : list string
}.

(** ** Observable effects, in the order they happen *)

Inductive Event :=
  | EvFetch (req : Request)
  | EvCachesKeys
  | EvCachesMatch (key : CacheKey)
  | EvCachePut (name : string) (key : CacheKey)
  | EvCachesDelete (name : string)
  | EvSkipWaiting
  | EvClientsClaim
  | EvSyncRegister (tag : string)
  | EvShowNotification (n : Notification).

(** What the browser offers for background sync: no [sync] in
    [ServiceWorkerRegistration.prototype]; a [sync.register] that
    rejects; or one that registers the tag. *)
Inductive SyncManager :=
  | SyncUnsupported
  | SyncRegisterFails
  | SyncRegisters.

#[global] Instance SyncManager_eq_dec : EqDecision SyncManager.
Proof. solve_decision. Defined.

Record World := mkWorld {
  w_location_origin : string;
  w_caches : CacheStorage;
  w_db : Database;
  w_network : list FetchResult;
  w_log : list Event;
  w_sync : SyncManager
}.

Definition set_caches (cs : CacheStorage) (w : World) : World :=
  mkWorld (w_location_origin w) cs (w_db w) (w_network w) (w_log w) (w_sync w).

Definition set_db (d : Database) (w : World) : World :=
  mkWorld (w_location_origin w) (w_caches w) d (w_network w) (w_log w) (w_sync w).

Definition set_network (n : list FetchResult) (w : World) : World :=
  mkWorld (w_location_origin w) (w_caches w) (w_db w) n (w_log w) (w_sync w).

Definition emit (e : Event) (w : World) : World :=
  mkWorld (w_location_origin w) (w_caches w) (w_db w) (w_network w)
          (w_log w ++ [e]) (w_sync w).

(* ===================================================================== *)
(** * The monad of worker code: state and exceptions *)
(* ===================================================================== *)

Inductive Exn :=
  | FetchFailed
  | TypeError
  | SyntaxError
  | DataError
  | DOMException.

Inductive Outcome (A : Type) :=
  | Return (a : A)
  | Throw (e : Exn).
Arguments Return {A} a.
Arguments Throw {A} e.

Definition SWM (A : Type) : Type := World → Outcome A * World.

#[global] Instance SWM_ret : MRet SWM := λ A a w, (Return a, w).

Definition throw {A} (e : Exn) : SWM A := λ w, (Throw e, w).

#[global] Instance SWM_bind : MBind SWM := λ A B k c w,
  match c w with
  | (Return a, w') => k a w'
  | (Throw e, w') => (Throw e, w')
  end.

(** [try { c } catch (error) { h error }] *)
Definition try_catch {A} (c : SWM A) (h : Exn → SWM A) : SWM A :=
  λ w, match c w with
       | (Return a, w') => (Return a, w')
       | (Throw e, w') => h e w'
       end.

(** [for (const x of l) { body x }] *)
Fixpoint for_of {A} (l : list A) (body : A → SWM unit) : SWM unit :=
  match l with
  | [] => mret tt
  | x :: l' => body x;; for_of l' body
  end.


(* ===================================================================== *)
(** * Browser primitives used by the worker *)
(* ===================================================================== *)

(** ** Cache storage *)

(** [caches.match(request)]: the generations are searched in creation
    order and the first hit wins. *)
Fixpoint storage_match (key : CacheKey) (cs : CacheStorage) : option Response :=
  match cs with
  | [] => None
  | (_, c) :: cs' =>
      match c !! key with
      | Some r => Some r
      | None => storage_match key cs'
      end
  end.

Definition storage_names (cs : CacheStorage) : list string := cs.*1.

(** [caches.open(name)] creates the generation when it does not exist. *)
Definition storage_open (name : string) (cs : CacheStorage) : CacheStorage :=
  if bool_decide (name ∈ storage_names cs) then cs else cs ++ [(name, ∅)].

(** [cache.put(request, response)] on the generation called [name]:
    the entry of that request identity is created or overwritten. *)
Definition storage_put (name : string) (key : CacheKey) (r : Response)
    (cs : CacheStorage) : CacheStorage :=
  (λ g : string * Cache,
     if bool_decide (g.1 = name) then (g.1, <[key := r]> g.2) else g) <$> cs.

(** [caches.delete(name)] *)
Definition storage_delete (name : string) (cs : CacheStorage) : CacheStorage :=
  filter (λ g : string * Cache, g.1 ≠ name) cs.

Definition location_origin : SWM string :=
  λ w, (Return (w_location_origin w), w).

(** [fetch(request)]: consumes the next answer of the network; with no
    answer left the network is down. *)
Definition fetch (req : Request) : SWM Response :=
  λ w, let w1 := emit (EvFetch req) w in
       match w_network w with
       | Responds r :: rest => (Return r, set_network rest w1)
       | NetworkDown :: rest => (Throw FetchFailed, set_network rest w1)
       | [] => (Throw FetchFailed, w1)
       end.

Definition caches_match (key : CacheKey) : SWM (option Response) :=
  λ w, (Return (storage_match key (w_caches w)), emit (EvCachesMatch key) w).

(** Returns the handle of the opened generation: its name. *)
Definition caches_open (name : string) : SWM string :=
  λ w, (Return name, set_caches (storage_open name (w_caches w)) w).

(** What [cache.put] accepts: the request must be a GET and the response
    must not have status 206; otherwise it rejects and stores nothing.  (It
    also rejects a response whose [Vary] header is [*]; responses carry no
    such header here.) *)
Definition put_accepts (req : Request) (r : Response) : bool :=
  bool_decide (req_method req = GET) && negb (status r =? 206).

Definition storage_try_put (name : string) (req : Request) (r : Response)
    (cs : CacheStorage) : CacheStorage :=
  if put_accepts req r then storage_put name (request_key req) r cs else cs.

(** [cache.put(request, response)] as the worker calls it, without
    awaiting it: the call is made, and a put that the cache rejects leaves
    the cache as it is while the caller goes on. *)
Definition cache_put (cache : string) (req : Request) (r : Response) : SWM unit :=
  λ w, (Return tt,
        emit (EvCachePut cache (request_key req))
             (set_caches (storage_try_put cache req r (w_caches w)) w)).

Definition caches_keys : SWM (list string) :=
  λ w, (Return (storage_names (w_caches w)), emit EvCachesKeys w).

Definition caches_delete (name : string) : SWM bool :=
  λ w, (Return (bool_decide (name ∈ storage_names (w_caches w))),
        emit (EvCachesDelete name)
             (set_caches (storage_delete name (w_caches w)) w)).

Definition skipWaiting : SWM unit := λ w, (Return tt, emit EvSkipWaiting w).

Definition clients_claim : SWM unit := λ w, (Return tt, emit EvClientsClaim w).

Definition showNotification (n : Notification) : SWM unit :=
  λ w, (Return tt, emit (EvShowNotification n) w).

(** ** Strings *)

(** [s.includes(sub)] *)
Fixpoint includes (sub s : string) : bool :=
  String.prefix sub s ||
  match s with
  | EmptyString => false
  | String _ s' => includes sub s'
  end.

(** [s.startsWith(p)] *)
Definition startsWith (p s : string) : bool := String.prefix p s.

(** ** Object stores of the database *)

Module Idb.

(** Records of an object store are held in ascending key order. *)
Fixpoint insert_by_key (a : PendingAction) (rows : list PendingAction)
    : list PendingAction :=
  match rows with
  | [] => [a]
  | b :: rows' =>
      if (pa_id a <? pa_id b)%N then a :: b :: rows'
      else b :: insert_by_key a rows'
  end.

(** [store.add({type, data, timestamp})] on [pending-actions]: the key
    generator supplies the [id] and advances. *)
Definition add (type data : string) (timestamp : N) (db : Database) : Database :=
  let id := db_key_generator db in
  mkDatabase (id + 1)%N
             (insert_by_key (mkPendingAction id type data timestamp) (db_pending db))
             (db_saved_cases db).

(** [store.getAll()] on [pending-actions]: every record, by ascending key. *)
Definition getAll (db : Database) : list PendingAction := db_pending db.

(** [store.delete(id)] on [pending-actions]; succeeds whether or not a
    record has that key. *)
Definition delete (id : N) (db : Database) : Database :=
  mkDatabase (db_key_generator db)
             (filter (λ a, pa_id a ≠ id) (db_pending db))
             (db_saved_cases db).

(** [store.put(record)] on [saved-cases-offline]: the record replaces
    the one stored under the same [reference], if any. *)
Definition put_case (c : OfflineCase) (db : Database) : Database :=
  mkDatabase (db_key_generator db) (db_pending db)
             (<[oc_reference c := c]> (db_saved_cases db)).

(** [store.getAll()] on [saved-cases-offline]. *)
Definition getAll_cases (db : Database) : list OfflineCase :=
  (map_to_list (db_saved_cases db)).*2.

(** The database as [onupgradeneeded] leaves it: empty stores, key
    generator at 1. *)
Definition empty : Database := mkDatabase 1%N [] ∅.

End Idb.

(* ===================================================================== *)
(** * The service worker *)
(* ===================================================================== *)

Definition CACHE_NAME : string := "planning-precedent-v1".
Definition OFFLINE_URL : string := "/offline".

Definition PRECACHE_ASSETS : list string :=
  [ "/"; "/offline"; "/manifest.json";
    "/icons/icon-192x192.png"; "/icons/icon-512x512.png" ].

Definition API_CACHE_ROUTES : list string :=
  [ "/api/v1/search/development-types";
    "/api/v1/search/conservation-areas";
    "/api/v1/wards";
    "/api/v1/policies" ].

(** A request made from a bare URL string: a same-origin GET. *)
Definition url_request (origin path : string) : Request :=
  mkRequest origin path EmptyString GET cors EmptyString.

(** ** install *)

(** A [fetch] whose rejection is kept as a value. *)
Definition settled_fetch (req : Request) : SWM FetchResult :=
  try_catch (r ← fetch req; mret (Responds r)) (λ error, mret NetworkDown).

(** Every request is issued, whatever the answers to the others. *)
Fixpoint fetch_all (reqs : list Request) : SWM (list FetchResult) :=
  match reqs with
  | [] => mret []
  | q :: reqs' =>
      o ← settled_fetch q;
      os ← fetch_all reqs';
      mret (o :: os)
  end.

(** What [cache.addAll] accepts: every request answered, each with an ok
    status other than 206. *)
Fixpoint addAll_accepts (outcomes : list FetchResult) : option (list Response) :=
  match outcomes with
  | [] => Some []
  | Responds r :: outcomes' =>
      if ok r && negb (status r =? 206)
      then rs ← addAll_accepts outcomes'; Some (r :: rs)
      else None
  | NetworkDown :: _ => None
  end.

(** [cache.addAll(urls)]: all the assets are requested; the entries are
    written only when every answer is accepted, otherwise the call rejects
    with a TypeError and writes nothing. *)
Definition cache_addAll (cache : string) (urls : list string) : SWM unit :=
  origin ← location_origin;
  outcomes ← fetch_all (url_request origin <$> urls);
  match addAll_accepts outcomes with
  | Some rs =>
      for_of (zip (url_request origin <$> urls) rs)
             (λ qr, cache_put cache qr.1 qr.2)
  | None => throw TypeError
  end.

Definition onInstall : SWM unit :=
  cache ← caches_open CACHE_NAME;
  cache_addAll cache PRECACHE_ASSETS;;
  skipWaiting.

(** ** activate *)

Definition onActivate : SWM unit :=
  cacheNames ← caches_keys;
  for_of (filter (λ name, name ≠ CACHE_NAME) cacheNames)
         (λ name, caches_delete name;; mret tt);;
  clients_claim.

(** ** fetch *)

(** [JSON.stringify] of an object whose properties are strings. *)
Definition quoted (s : string) : string :=
  let q := String (Ascii.ascii_of_nat 34) EmptyString in q +:+ s +:+ q.

Definition JSON_stringify (o : list (string * string)) : string :=
  "{" +:+ String.concat "," ((λ kv, quoted kv.1 +:+ ":" +:+ quoted kv.2) <$> o) +:+ "}".

Definition offline_api_response : Response :=
  mkResponse 503 "application/json"
    (JSON_stringify
       [ ("error", "Offline");
         ("message", "You are offline. Please check your connection.") ]).

Definition offline_html_response : Response :=
  mkResponse 503 "text/html"
    "<html><body><h1>Offline</h1><p>Please check your connection.</p></body></html>".

Definition handleApiRequest (request : Request) : SWM Response :=
  let shouldCache :=
    existsb (λ route, includes route (req_pathname request)) API_CACHE_ROUTES in
  try_catch
    (networkResponse ← fetch request;
     (if shouldCache && bool_decide (req_method request = GET) && ok networkResponse
      then cache ← caches_open CACHE_NAME;
           cache_put cache request networkResponse
      else mret tt);;
     mret networkResponse)
    (λ error,
     if bool_decide (req_method request = GET)
     then cachedResponse ← caches_match (request_key request);
          match cachedResponse with
          | Some r => mret r
          | None => mret offline_api_response
          end
     else mret offline_api_response).

Definition handleNavigationRequest (request : Request) : SWM Response :=
  try_catch
    (networkResponse ← fetch request;
     (if ok networkResponse
      then cache ← caches_open CACHE_NAME;
           cache_put cache request networkResponse
      else mret tt);;
     mret networkResponse)
    (λ error,
     cachedResponse ← caches_match (request_key request);
     match cachedResponse with
     | Some r => mret r
     | None =>
         origin ← location_origin;
         offlineResponse ← caches_match (request_key (url_request origin OFFLINE_URL));
         match offlineResponse with
         | Some r => mret r
         | None => mret offline_html_response
         end
     end).

Definition handleStaticRequest (request : Request) : SWM Response :=
  cachedResponse ← caches_match (request_key request);
  match cachedResponse with
  | Some r => mret r
  | None =>
      try_catch
        (networkResponse ← fetch request;
         (if ok networkResponse && bool_decide (req_method request = GET)
          then cache ← caches_open CACHE_NAME;
               cache_put cache request networkResponse
          else mret tt);;
         mret networkResponse)
        (λ error, throw error)
  end.

Inductive RouteClass := ApiClass | NavigationClass | StaticAssetClass.

Definition route_class (request : Request) : RouteClass :=
  if startsWith "/api/" (req_pathname request) then ApiClass
  else if bool_decide (req_mode request = navigate) then NavigationClass
  else StaticAssetClass.

Definition handle (request : Request) : SWM Response :=
  match route_class request with
  | ApiClass => handleApiRequest request
  | NavigationClass => handleNavigationRequest request
  | StaticAssetClass => handleStaticRequest request
  end.

(** The fetch listener. A cross-origin request is not answered by the
    worker: the browser performs it as if no worker were installed. *)
Definition onFetch (request : Request) : SWM Response :=
  origin ← location_origin;
  if bool_decide (req_origin request ≠ origin) then fetch request
  else handle request.

(** ** sync *)

(** The worker uses the database after [onupgradeneeded] has created its
    object stores. *)
Definition openDatabase : SWM unit := mret tt.

Definition getPendingActions (db : unit) (type : string) : SWM (list PendingAction) :=
  λ w, (Return (filter (λ a, pa_type a = type) (Idb.getAll (w_db w))), w).

Definition removePendingAction (db : unit) (type : string) (id : N) : SWM unit :=
  λ w, (Return tt, set_db (Idb.delete id (w_db w)) w).

(** [fetch(path, { method: 'POST', headers, body: JSON.stringify(data) })];
    the queued [data] is kept in serialised form. *)
Definition post_request (origin path data : string) : Request :=
  mkRequest origin path EmptyString POST cors data.

Definition syncSavedCases : SWM unit :=
  try_catch
    (db ← openDatabase;
     pendingSaves ← getPendingActions db "saved-cases";
     for_of pendingSaves (λ save,
       try_catch
         (origin ← location_origin;
          fetch (post_request origin "/api/v1/users/saved-cases" (pa_data save));;
          removePendingAction db "saved-cases" (pa_id save))
         (λ error, mret tt)))
    (λ error, mret tt).

Definition syncSearchHistory : SWM unit :=
  try_catch
    (db ← openDatabase;
     pendingSearches ← getPendingActions db "search-history";
     for_of pendingSearches (λ search,
       try_catch
         (origin ← location_origin;
          fetch (post_request origin "/api/v1/users/search-history" (pa_data search));;
          removePendingAction db "search-history" (pa_id search))
         (λ error, mret tt)))
    (λ error, mret tt).

Definition onSync (tag : string) : SWM unit :=
  (if bool_decide (tag = "sync-saved-cases") then syncSavedCases else mret tt);;
  (if bool_decide (tag = "sync-search-history") then syncSearchHistory else mret tt).

(** ** push *)

(** The fields the listener reads from the payload object; [None] is a
    field the object does not have.  [pf_data] and [pf_actions] hold an
    object and an array, which are truthy whatever they contain. *)
Record PushFields := mkPushFields {
  pf_title : option string;
  pf_body : option string;
  pf_icon : option string;
  pf_badge : option string;
  pf_data : option string;
  pf_actions : option (list string)
}.

(** What [event.data.json()] yields when the payload is JSON: [null], or a
    value whose properties can be read (an object; a number, string or
    boolean reads as an object without any of the fields). *)
Inductive Json :=
  | JsNull
  | JsObject (o : PushFields).

(** [event.data]: [pmd_json] is [None] when the payload is not JSON. *)
Record PushMessageData := mkPushMessageData {
  pmd_json : option Json;
  pmd_text : string
}.

Definition data_json (d : PushMessageData) : SWM Json :=
  match pmd_json d with
  | Some j => mret j
  | None => throw SyntaxError
  end.

Definition default_push_data : PushFields :=
  mkPushFields (Some "Planning Precedent AI") (Some "New notification")
               (Some "/icons/icon-192x192.png") (Some "/icons/badge-72x72.png")
               None None.

Definition set_body (b : string) (o : PushFields) : PushFields :=
  mkPushFields (pf_title o) (Some b) (pf_icon o) (pf_badge o) (pf_data o)
               (pf_actions o).

(** [v || d] on a string-valued field: absent and empty are falsy. *)
Definition or_default (v : option string) (d : string) : string :=
  match v with
  | Some s => if bool_decide (s = EmptyString) then d else s
  | None => d
  end.

Definition onPush (event_data : option PushMessageData) : SWM unit :=
  data ← match event_data with
         | Some d =>
             try_catch (data_json d)
                       (λ e, mret (JsObject (set_body (pmd_text d) default_push_data)))
         | None => mret (JsObject default_push_data)
         end;
  match data with
  | JsNull => throw TypeError
  | JsObject data =>
      showNotification
        (mkNotification
           (pf_title data)
           (pf_body data)
           (or_default (pf_icon data) "/icons/icon-192x192.png")
           (or_default (pf_badge data) "/icons/badge-72x72.png")
           [100; 50; 100]%N
           (default "{}" (pf_data data))
           (default [] (pf_actions data)))
  end.

(* ===================================================================== *)
(** * frontend/src/lib/pwa.ts: the page side of the offline store *)
(* ===================================================================== *)

(** ['sync' in ServiceWorkerRegistration.prototype] *)
Definition sync_supported : SWM bool :=
  λ w, (Return (bool_decide (w_sync w ≠ SyncUnsupported)), w).

(** [registration.sync.register(tag)]: registers the tag, or rejects. *)
Definition sync_register (tag : string) : SWM unit :=
  λ w, match w_sync w with
       | SyncRegisters => (Return tt, emit (EvSyncRegister tag) w)
       | _ => (Throw DOMException, w)
       end.

Definition requestBackgroundSync (tag : string) : SWM bool :=
  supported ← sync_supported;
  if negb supported then mret false
  else try_catch (sync_register tag;; mret true) (λ error, mret false).

(** [now] is the value of [Date.now()] at the call. *)
Definition queueOfflineAction (type data : string) (now : N) : SWM unit :=
  (λ w, (Return tt, set_db (Idb.add type data now (w_db w)) w));;
  requestBackgroundSync ("sync-" +:+ type);;
  mret tt.

(** The argument of [saveCaseOffline]: its [reference] property, if it has
    one, and its other properties in serialised form. *)
Record CaseData := mkCaseData {
  cd_reference : option string;
  cd_fields : string
}.

(** [store.put] throws a [DataError] when the record has no value at the
    key path. *)
Definition saveCaseOffline (caseData : CaseData) (now : N) : SWM unit :=
  match cd_reference caseData with
  | Some reference =>
      λ w, (Return tt,
            set_db (Idb.put_case (mkOfflineCase reference (cd_fields caseData) now)
                                 (w_db w)) w)
  | None => throw DataError
  end.

Definition getOfflineSavedCases : SWM (list OfflineCase) :=
  λ w, (Return (Idb.getAll_cases (w_db w)), w).

(* ===================================================================== *)
(** * src/lib/store.ts: the persisted stores *)
(* ===================================================================== *)

Record SearchEntry := mkSearchEntry {
  se_query : string;
  se_timestamp : N
}.

(** [now] is the value of [Date.now()] at the call. *)
Definition addSearch (query : string) (now : N) (searches : list SearchEntry)
    : list SearchEntry :=
  take 10 (mkSearchEntry query now
           :: filter (λ s, se_query s ≠ query) searches).

Definition clearSearches (searches : list SearchEntry) : list SearchEntry := [].

(** The fields of [PlanningDecision] that identify and describe a case;
    the optional ones are carried in [pd_rest]. *)
Record PlanningDecision := mkPlanningDecision {
  pd_id : Z;
  case_reference : string;
  pd_address : string;
  pd_ward : string;
  pd_decision_date : string;
  pd_outcome : string;
  pd_description : string;
  pd_rest : string
}.

Definition addCase (decision : PlanningDecision) (cases : list PlanningDecision)
    : list PlanningDecision :=
  if existsb (λ c, bool_decide (case_reference c = case_reference decision)) cases
  then cases
  else cases ++ [decision].

Definition removeCase (caseRef : string) (cases : list PlanningDecision)
    : list PlanningDecision :=
  filter (λ c, case_reference c ≠ caseRef) cases.

Definition isSaved (caseRef : string) (cases : list PlanningDecision) : bool :=
  existsb (λ c, bool_decide (case_reference c = caseRef)) cases.

Definition clearCases (cases : list PlanningDecision) : list PlanningDecision := [].

(* ===================================================================== *)
(** * The service worker, continued: notification clicks *)
(* ===================================================================== *)

(** A window client as [clients.matchAll] lists it: its URL, and whether
    it can be focused (['focus' in client]). *)
Record WindowClient := mkWindowClient {
  wc_url : string;
  wc_can_focus : bool
}.

Inductive ClickEffect :=
  | EffClose
  | EffFocus (client : WindowClient)
  | EffOpenWindow (url : string).

(** The [notificationclick] listener, as the effects it has in order.
    [data_url] is [event.notification.data?.url]; [can_open] tells whether
    [clients.openWindow] exists. *)
Definition onNotificationClick (data_url : option string)
    (windowClients : list WindowClient) (can_open : bool) : list ClickEffect :=
  let urlToOpen := or_default data_url "/" in
  EffClose ::
  match List.find (λ client, bool_decide (wc_url client = urlToOpen)
                             && wc_can_focus client) windowClients with
  | Some client => [EffFocus client]
  | None => if can_open then [EffOpenWindow urlToOpen] else []
  end.

(* ===================================================================== *)
(** * frontend/src/lib/pwa.ts, continued *)
(* ===================================================================== *)

(** ** The VAPID key *)

(** [s.repeat(n)] *)
Fixpoint repeat_string (s : string) (n : nat) : string :=
  match n with
  | O => EmptyString
  | S n' => s +:+ repeat_string s n'
  end.

(** [s.replace(/a/g, b)] for single characters. *)
Fixpoint replace_all (a b : Ascii.ascii) (s : string) : string :=
  match s with
  | EmptyString => EmptyString
  | String ch s' =>
      String (if bool_decide (ch = a) then b else ch) (replace_all a b s')
  end.

(** The constant [base64] of [urlBase64ToUint8Array]: the key padded with
    [=] and with the URL-safe characters replaced. *)
Definition base64_of_url (base64String : string) : string :=
  let padding :=
    repeat_string "=" ((4 - String.length base64String mod 4) mod 4)%nat in
  replace_all "_"%char "/"%char
    (replace_all "-"%char "+"%char (base64String +:+ padding)).

(** [window.atob] is taken as a parameter: [None] when it throws. *)
Definition urlBase64ToUint8Array (atob : string → option string)
    (base64String : string) : option (list N) :=
  rawData ← atob (base64_of_url base64String);
  Some (N_of_ascii <$> String.list_ascii_of_string rawData).

(** ** Cached search results *)

(** A record of the object store [cached-searches] ([keyPath: 'query']). *)
Record CachedSearch := mkCachedSearch {
  cs_query : string;
  cs_results : list string;
  cs_timestamp : N
}.

(** [now] is the value of [Date.now()] at the call. *)
Definition cacheSearchResults (query : string) (results : list string) (now : N)
    (store : gmap string CachedSearch) : gmap string CachedSearch :=
  <[query := mkCachedSearch query results now]> store.

(** [None] is the [null] returned for a query that was not cached. *)
Definition getCachedSearchResults (query : string)
    (store : gmap string CachedSearch) : option (list string) :=
  match store !! query with
  | Some result => Some (cs_results result)
  | None => None
  end.

(** ** The install prompt *)

Inductive UserChoice := Accepted | Dismissed.

#[global] Instance UserChoice_eq_dec : EqDecision UserChoice.
Proof. solve_decision. Defined.

(** The module variable [deferredPrompt]: [None] is [null]; a deferred
    [beforeinstallprompt] event is held with the outcome its [userChoice]
    resolves to once it is prompted. *)
Abbreviation DeferredPrompt := (option UserChoice).

(** The two listeners that [setupInstallPrompt] registers. *)
Definition on_beforeinstallprompt (e : UserChoice) (deferredPrompt : DeferredPrompt)
    : DeferredPrompt := Some e.

Definition on_appinstalled (deferredPrompt : DeferredPrompt) : DeferredPrompt :=
  None.

(** Returns its result and the new value of [deferredPrompt]. *)
Definition showInstallPrompt (deferredPrompt : DeferredPrompt)
    : bool * DeferredPrompt :=
  match deferredPrompt with
  | None => (false, None)
  | Some outcome => (bool_decide (outcome = Accepted), None)
  end.

Definition canShowInstallPrompt (deferredPrompt : DeferredPrompt) : bool :=
  bool_decide (deferredPrompt ≠ None).

(* ===================================================================== *)
(** * src/lib/store.ts, continued: the analysis store *)
(* ===================================================================== *)

Definition togglePrecedent (caseRef : string) (selectedPrecedents : list string)
    : list string :=
  if bool_decide (caseRef ∈ selectedPrecedents)
  then filter (λ ref, ref ≠ caseRef) selectedPrecedents
  else selectedPrecedents ++ [caseRef].

Definition clearSelection (selectedPrecedents : list string) : list string := [].

(* ===================================================================== *)
(** * Notions used to state the properties *)
(* ===================================================================== *)

(** No answer will come for the next [fetch]: its promise rejects. *)
Definition network_down (w : World) : bool :=
  match w_network w with
  | Responds _ :: _ => false
  | _ => true
  end.

(** A response held in cache storage: some generation has it under the
    key. *)
Definition cached (cs : CacheStorage) (key : CacheKey) (r : Response) : Prop :=
  ∃ (name : string) (c : Cache), (name, c) ∈ cs ∧ c !! key = Some r.

(** What a strategy may leave in cache storage: what was there, or the ok
    answer to a GET under the key of that request. *)
Definition entry_allowed (request : Request) (w : World) (key : CacheKey)
    (r : Response) : Prop :=
  cached (w_caches w) key r
  ∨ (req_method request = GET
     ∧ key = request_key request
     ∧ ok r = true
     ∧ ∃ rest, w_network w = Responds r :: rest).

(** The events a run appends to the log. *)
Definition appended (w w' : World) (added : list Event) : Prop :=
  w_log w' = w_log w ++ added.

(** ** The invariant of [pending-actions] *)

(** The keys of the records are strictly ascending, starting at [lo] or
    above. *)
Fixpoint keys_ascending (lo : N) (rows : list PendingAction) : Prop :=
  match rows with
  | [] => True
  | a :: rows' => (lo ≤ pa_id a)%N ∧ keys_ascending (pa_id a + 1) rows'
  end.

(** Records are in key order and the key generator is above every key in
    use. *)
Definition pending_wf (db : Database) : Prop :=
  keys_ascending 0 (db_pending db)
  ∧ Forall (λ a, (pa_id a < db_key_generator db)%N) (db_pending db).

(** ** Sequences of operations *)

(** [queueOfflineAction(kind, data)] called for each item in turn; an item
    is the queued data and the time of its call. *)
Definition enqueue_all (kind : string) (items : list (string * N)) : SWM unit :=
  for_of items (λ item, queueOfflineAction kind item.1 item.2).

(** The records the store makes of the items, the first one under the key
    [next]. *)
Fixpoint stamped (next : N) (kind : string) (items : list (string * N))
    : list PendingAction :=
  match items with
  | [] => []
  | item :: items' =>
      mkPendingAction next kind item.1 item.2 :: stamped (next + 1) kind items'
  end.

(** One turn of the replay loop of a sync function on the item [save]:
    the POST is issued; when its promise resolves the item is deleted, when
    it rejects the item is left where it is. *)
Definition drain_step (path : string) (w : World) (save : PendingAction) : World :=
  let w1 := emit (EvFetch (post_request (w_location_origin w) path (pa_data save))) w in
  match w_network w with
  | Responds _ :: rest => set_db (Idb.delete (pa_id save) (w_db w)) (set_network rest w1)
  | NetworkDown :: rest => set_network rest w1
  | [] => w1
  end.

(** The ids of the items whose POST gets an answer, whatever its status. *)
Fixpoint answered (items : list PendingAction) (net : list FetchResult) : list N :=
  match items with
  | [] => []
  | a :: items' =>
      match net with
      | Responds _ :: net' => pa_id a :: answered items' net'
      | NetworkDown :: net' => answered items' net'
      | [] => answered items' []
      end
  end.

(** The notification made of the default title, body, icon and badge. *)
Definition default_notification : Notification :=
  mkNotification (Some "Planning Precedent AI") (Some "New notification")
                 "/icons/icon-192x192.png" "/icons/badge-72x72.png"
                 [100; 50; 100]%N "{}" [].

(** [saveCaseOffline] called for each case in turn, with the time of the
    call; a call that throws leaves the store as it was. *)
Definition save_cases_offline (saves : list (CaseData * N)) (w : World) : World :=
  foldl (λ w0 s, (saveCaseOffline s.1 s.2 w0).2) w saves.

(** [addCase] called for each decision in turn. *)
Definition add_cases (decisions : list PlanningDecision)
    (cases : list PlanningDecision) : list PlanningDecision :=
  foldl (λ cs d, addCase d cs) cases decisions.

(** ** The invariant of [saved-cases-offline] *)

(** Every record is stored under its own [reference]. *)
Definition keyed_by_reference (db : Database) : Prop :=
  map_Forall (λ k c, oc_reference c = k) (db_saved_cases db).

(** ** The states of the recent-searches store *)

(** The store starts empty and changes by its two actions only. *)
Inductive searches_reachable : list SearchEntry → Prop :=
  | reach_initial : searches_reachable []
  | reach_addSearch query now searches :
      searches_reachable searches →
      searches_reachable (addSearch query now searches)
  | reach_clearSearches searches :
      searches_reachable searches →
      searches_reachable (clearSearches searches).

(* ===================================================================== *)
(** * Sample states and requests *)
(* ===================================================================== *)

Definition app_origin : string := "https://planning.example".

Definition page_200 : Response := mkResponse 200 "text/html" "<html>page</html>".
Definition created_201 : Response := mkResponse 201 "application/json" "{}".
Definition error_500 : Response := mkResponse 500 "text/plain" "Internal Server Error".
Definition offline_page : Response := mkResponse 200 "text/html" "<html>offline</html>".

(** A worker with the generations of two deployments in cache storage. *)
Definition two_generations : World :=
  mkWorld app_origin
          [ ("planning-precedent-v0", {[ (GET, app_origin +:+ "/") := page_200 ]});
            (CACHE_NAME, {[ (GET, app_origin +:+ "/offline") := offline_page ]}) ]
          Idb.empty [] [] SyncRegisters.

(** An installed worker with nothing cached, offline. *)
Definition offline_world : World :=
  mkWorld app_origin [] Idb.empty [] [] SyncRegisters.

Definition save_case_post : Request :=
  mkRequest app_origin "/api/v1/users/saved-cases" EmptyString POST cors
            "{'case_reference':'2023/1234/P'}".

Definition search_page_get : Request :=
  mkRequest app_origin "/search" "?q=loft" GET navigate EmptyString.

(** A form submitted by POST: a navigation that is not a GET. *)
Definition form_post : Request :=
  mkRequest app_origin "/contact" EmptyString POST navigate "name=A".

(** Two saved cases queued while offline; on reconnection the server
    answers the first replay with status 500 and the second with 201. *)
Definition two_queued : World :=
  (enqueue_all "saved-cases" [("{'case_reference':'2023/0001/P'}", 10%N);
                              ("{'case_reference':'2023/0002/P'}", 20%N)]
     (set_network [Responds error_500; Responds created_201] offline_world)).2.

(** Two searches queued while offline; the server answers the first
    replay with status 500 and the second with 201. *)
Definition two_searches_queued : World :=
  (enqueue_all "search-history" [("{'query':'loft'}", 10%N);
                                 ("{'query':'basement'}", 20%N)]
     (set_network [Responds error_500; Responds created_201] offline_world)).2.

(** A saved case and a search queued while offline; on reconnection the
    server answers the replay of the saved case with status 201. *)
Definition mixed_queue : World :=
  (enqueue_all "search-history" [("{'query':'loft'}", 20%N)]
     (enqueue_all "saved-cases" [("{'case_reference':'2023/0001/P'}", 10%N)]
        (set_network [Responds created_201] offline_world)).2).2.

(** A push payload that is a JSON object with a body and nothing else. *)
Definition body_only_push : PushMessageData :=
  mkPushMessageData
    (Some (JsObject (mkPushFields None (Some "Decision issued") None None None None)))
    "{'body':'Decision issued'}".

Definition decision_v1 : PlanningDecision :=
  mkPlanningDecision 1 "2023/1234/P" "1 High Street" "Hampstead Town"
                     "2023-05-01" "Pending" "Rear extension" "{}".

(** The same case, fetched again after it was decided. *)
Definition decision_v2 : PlanningDecision :=
  mkPlanningDecision 1 "2023/1234/P" "1 High Street" "Hampstead Town"
                     "2023-09-12" "Granted" "Rear extension" "{}".


(** A reference-data request of the API allow-list. *)
Definition wards_get : Request :=
  mkRequest app_origin "/api/v1/wards" EmptyString GET cors EmptyString.

(** A script requested by a page. *)
Definition script_get : Request :=
  mkRequest app_origin "/_next/static/app.js" EmptyString GET no_cors EmptyString.

Definition wards_200 : Response :=
  mkResponse 200 "application/json" "['Hampstead Town','Belsize']".

(** The next [n] requests are all answered, each with an ok status. *)
Fixpoint all_answered_ok (n : nat) (net : list FetchResult) : bool :=
  match n with
  | O => true
  | S n' =>
      match net with
      | Responds r :: net' => ok r && all_answered_ok n' net'
      | _ => false
      end
  end.

(** The answers to the next [n] requests: with no answer left the network
    is down. *)
Fixpoint answers (n : nat) (net : list FetchResult) : list FetchResult :=
  match n with
  | O => []
  | S n' =>
      match net with
      | [] => NetworkDown :: answers n' []
      | o :: net' => o :: answers n' net'
      end
  end.


(* ===================================================================== *)
(** * Properties *)
(* ===================================================================== *)

(** Unfolds the monad so that a run of worker code reduces on a world. *)
Ltac run_swm :=
  unfold mbind, SWM_bind, mret, SWM_ret, try_catch, throw; simpl.

Ltac run_swm_in H :=
  unfold mbind, SWM_bind, mret, SWM_ret, try_catch, throw in H; simpl in H.

Lemma for_of_cons {A} (x : A) l body w :
  for_of (x :: l) body w =
  match body x w with
  | (Return _, w') => for_of l body w'
  | (Throw e, w') => (Throw e, w')
  end.
Proof. reflexivity. Qed.

Lemma filter_ext_elem {A} (P Q : A → Prop)
    `{!∀ x, Decision (P x), !∀ x, Decision (Q x)} (l : list A) :
  (∀ x, x ∈ l → P x ↔ Q x) → filter P l = filter Q l.
Proof.
  induction l as [|a l IH]; intros Hext; [done|].
  rewrite !filter_cons.
  rewrite IH by (intros x Hx; apply Hext; by right).
  destruct (decide (P a)) as [Hp|Hp], (decide (Q a)) as [Hq|Hq]; try done.
  - exfalso. apply Hq, Hext; [by left | done].
  - exfalso. apply Hp, Hext; [by left | done].
Qed.

Lemma filter_all {A} (P : A → Prop) `{!∀ x, Decision (P x)} (l : list A) :
  (∀ x, x ∈ l → P x) → filter P l = l.
Proof.
  induction l as [|a l IH]; intros Hall; [done|].
  rewrite filter_cons_True by (apply Hall; by left).
  f_equal. apply IH. intros x Hx. apply Hall. by right.
Qed.

(* --------------------------------------------------------------------- *)
(** ** Activation *)
(* --------------------------------------------------------------------- *)

Section Activation.

Lemma delete_loop names w :
  for_of names (λ name, caches_delete name;; mret tt) w =
  (Return tt,
   mkWorld (w_location_origin w)
           (foldl (λ cs n, storage_delete n cs) (w_caches w) names)
           (w_db w) (w_network w)
           (w_log w ++ (EvCachesDelete <$> names)) (w_sync w)).
Proof.
  revert w. induction names as [|n names IH]; intros w.
  - simpl. rewrite app_nil_r. by destruct w.
  - rewrite for_of_cons.
    change ((caches_delete n;; mret tt) w)
      with (Return tt, emit (EvCachesDelete n)
              (set_caches (storage_delete n (w_caches w)) w)).
    cbv iota. rewrite IH. simpl. by rewrite <- app_assoc.
Qed.

Lemma foldl_storage_delete names cs :
  foldl (λ cs n, storage_delete n cs) cs names =
  filter (λ g : string * Cache, g.1 ∉ names) cs.
Proof.
  revert cs. induction names as [|n names IH]; intros cs; simpl.
  - symmetry. apply filter_all. intros g _. apply not_elem_of_nil.
  - rewrite IH. unfold storage_delete. rewrite list_filter_filter.
    apply list_filter_iff. intros g. rewrite not_elem_of_cons. tauto.
Qed.

Lemma purge_keeps_current cs :
  filter (λ g : string * Cache,
            g.1 ∉ filter (λ name, name ≠ CACHE_NAME) (storage_names cs)) cs =
  filter (λ g : string * Cache, g.1 = CACHE_NAME) cs.
Proof.
  apply filter_ext_elem. intros g Hg.
  rewrite list_elem_of_filter. split.
  - intros Hn. destruct (decide (g.1 = CACHE_NAME)) as [|Hne]; [done|].
    exfalso. apply Hn. split; [done|].
    unfold storage_names. apply list_elem_of_fmap. by exists g.
  - intros -> [Hne _]. by apply Hne.
Qed.

Lemma onActivate_run w :
  onActivate w =
  (Return tt,
   mkWorld (w_location_origin w)
           (filter (λ g : string * Cache, g.1 = CACHE_NAME) (w_caches w))
           (w_db w) (w_network w)
           (w_log w ++ EvCachesKeys
              :: (EvCachesDelete
                    <$> filter (λ name, name ≠ CACHE_NAME)
                               (storage_names (w_caches w)))
              ++ [EvClientsClaim]) (w_sync w)).
Proof.
  pose proof (delete_loop
                (filter (λ name, name ≠ CACHE_NAME) (storage_names (w_caches w)))
                (emit EvCachesKeys w)) as Hloop.
  unfold onActivate. run_swm. run_swm_in Hloop. rewrite Hloop.
  rewrite foldl_storage_delete, purge_keeps_current.
  unfold clients_claim, emit. simpl.
  by rewrite <- !app_assoc.
Qed.

Lemma storage_match_Some key r cs :
  storage_match key cs = Some r →
  ∃ name c, (name, c) ∈ cs ∧ c !! key = Some r.
Proof.
  induction cs as [|[n c] cs IH]; [done|]. simpl.
  destruct (c !! key) as [r'|] eqn:Hc.
  - intros [= ->]. exists n, c. split; [by left | done].
  - intros H. destruct (IH H) as (n' & c' & Hin & Hl).
    exists n', c'. split; [by right | done].
Qed.

End Activation.

(** C6: on activation every cache generation other than the current one is
    enumerated and deleted, the current one is kept as it is, all the
    deletions happen before the clients are claimed, and afterwards a
    response can only be retrieved from the current generation. *)
Theorem activation_purges_stale_generations (w : World) :
  let w' := (onActivate w).2 in
  (onActivate w).1 = Return tt ∧
  w_caches w' = filter (λ g : string * Cache, g.1 = CACHE_NAME) (w_caches w) ∧
  (∀ name, name ∈ storage_names (w_caches w') → name = CACHE_NAME) ∧
  w_log w' =
    w_log w ++ EvCachesKeys
      :: (EvCachesDelete
            <$> filter (λ name, name ≠ CACHE_NAME) (storage_names (w_caches w)))
      ++ [EvClientsClaim] ∧
  (∀ key r, storage_match key (w_caches w') = Some r →
     ∃ c, (CACHE_NAME, c) ∈ w_caches w ∧ c !! key = Some r).
Proof.
  rewrite onActivate_run. simpl. repeat split.
  - intros name Hin. unfold storage_names in Hin.
    apply list_elem_of_fmap in Hin as (g & -> & Hg).
    by apply list_elem_of_filter in Hg as [Hg _].
  - intros key r Hm.
    apply storage_match_Some in Hm as (name & c & Hin & Hc).
    apply list_elem_of_filter in Hin as [Hname Hin]. simpl in Hname.
    subst name. by exists c.
Qed.

Lemma activation_purges_stale_generations_witness :
  ∃ c, (CACHE_NAME, c) ∈ w_caches two_generations ∧
       c !! (GET, app_origin +:+ "/offline") = Some offline_page.
Proof.
  apply (proj2 (proj2 (proj2 (proj2
           (activation_purges_stale_generations two_generations))))).
  vm_compute. reflexivity.
Defined.

(* --------------------------------------------------------------------- *)
(** ** Request interception *)
(* --------------------------------------------------------------------- *)

Section Interception.

Implicit Types (request : Request) (w : World).

Lemma fetch_down request w :
  network_down w = true →
  fetch request w =
  (Throw FetchFailed,
   set_network (tail (w_network w)) (emit (EvFetch request) w)).
Proof.
  unfold network_down, fetch. destruct w as [o cs d net lg sy]. simpl.
  by destruct net as [|[|r] rest].
Qed.

Lemma fetch_up request w r rest :
  w_network w = Responds r :: rest →
  fetch request w = (Return r, set_network rest (emit (EvFetch request) w)).
Proof. unfold fetch. by intros ->. Qed.

(** The network answers or it does not. *)
Lemma network_cases w :
  network_down w = true ∨ ∃ r rest, w_network w = Responds r :: rest.
Proof.
  unfold network_down. destruct (w_network w) as [|[|r] rest]; eauto.
Qed.

(** What the API strategy does when the network is down. *)
Lemma handleApiRequest_down request w :
  network_down w = true →
  handleApiRequest request w =
  let w1 := set_network (tail (w_network w)) (emit (EvFetch request) w) in
  if bool_decide (req_method request = GET)
  then (Return (default offline_api_response
                        (storage_match (request_key request) (w_caches w))),
        emit (EvCachesMatch (request_key request)) w1)
  else (Return offline_api_response, w1).
Proof.
  intros Hdown. unfold handleApiRequest. run_swm.
  rewrite (fetch_down _ _ Hdown). simpl.
  destruct (bool_decide (req_method request = GET)); [|done].
  unfold caches_match. simpl.
  by destruct (storage_match (request_key request) (w_caches w)).
Qed.

(** What the API strategy does when the network answers. *)
Lemma handleApiRequest_up request w r rest :
  w_network w = Responds r :: rest →
  handleApiRequest request w =
  let w1 := set_network rest (emit (EvFetch request) w) in
  if existsb (λ route, includes route (req_pathname request)) API_CACHE_ROUTES
     && bool_decide (req_method request = GET) && ok r
  then (Return r,
        emit (EvCachePut CACHE_NAME (request_key request))
             (set_caches (storage_try_put CACHE_NAME request r
                            (storage_open CACHE_NAME (w_caches w))) w1))
  else (Return r, w1).
Proof.
  intros Hup. unfold handleApiRequest. run_swm.
  rewrite (fetch_up _ _ _ _ Hup). simpl.
  by destruct (_ && _ && ok r).
Qed.

Lemma handleNavigationRequest_down request w :
  network_down w = true →
  handleNavigationRequest request w =
  let w1 := set_network (tail (w_network w)) (emit (EvFetch request) w) in
  let w2 := emit (EvCachesMatch (request_key request)) w1 in
  let offline_key := request_key (url_request (w_location_origin w) OFFLINE_URL) in
  match storage_match (request_key request) (w_caches w) with
  | Some cached => (Return cached, w2)
  | None =>
      (Return (default offline_html_response
                       (storage_match offline_key (w_caches w))),
       emit (EvCachesMatch offline_key) w2)
  end.
Proof.
  intros Hdown. unfold handleNavigationRequest. run_swm.
  rewrite (fetch_down _ _ Hdown). simpl.
  unfold caches_match. simpl.
  destruct (storage_match (request_key request) (w_caches w)); [done|].
  simpl.
  by destruct (storage_match _ (w_caches w)).
Qed.

Lemma handleNavigationRequest_up request w r rest :
  w_network w = Responds r :: rest →
  handleNavigationRequest request w =
  let w1 := set_network rest (emit (EvFetch request) w) in
  if ok r
  then (Return r,
        emit (EvCachePut CACHE_NAME (request_key request))
             (set_caches (storage_try_put CACHE_NAME request r
                            (storage_open CACHE_NAME (w_caches w))) w1))
  else (Return r, w1).
Proof.
  intros Hup. unfold handleNavigationRequest. run_swm.
  rewrite (fetch_up _ _ _ _ Hup). simpl.
  by destruct (ok r).
Qed.

Lemma handleStaticRequest_hit request w cached :
  storage_match (request_key request) (w_caches w) = Some cached →
  handleStaticRequest request w =
  (Return cached, emit (EvCachesMatch (request_key request)) w).
Proof.
  intros Hhit. unfold handleStaticRequest. run_swm. by rewrite Hhit.
Qed.

Lemma handleStaticRequest_miss_down request w :
  storage_match (request_key request) (w_caches w) = None →
  network_down w = true →
  handleStaticRequest request w =
  (Throw FetchFailed,
   set_network (tail (w_network w))
     (emit (EvFetch request) (emit (EvCachesMatch (request_key request)) w))).
Proof.
  intros Hmiss Hdown. unfold handleStaticRequest. run_swm. rewrite Hmiss.
  rewrite fetch_down by done. done.
Qed.

Lemma handleStaticRequest_miss_up request w r rest :
  storage_match (request_key request) (w_caches w) = None →
  w_network w = Responds r :: rest →
  handleStaticRequest request w =
  let w1 := set_network rest
              (emit (EvFetch request)
                 (emit (EvCachesMatch (request_key request)) w)) in
  if ok r && bool_decide (req_method request = GET)
  then (Return r,
        emit (EvCachePut CACHE_NAME (request_key request))
             (set_caches (storage_try_put CACHE_NAME request r
                            (storage_open CACHE_NAME (w_caches w))) w1))
  else (Return r, w1).
Proof.
  intros Hmiss Hup. unfold handleStaticRequest. run_swm. rewrite Hmiss.
  erewrite fetch_up by (simpl; exact Hup). simpl.
  by destruct (ok r && _).
Qed.

End Interception.

Section FetchClaims.

Implicit Types (request : Request) (w : World).

(** C5: a navigation made while the network is unavailable is answered
    with the cached copy of the requested page when there is one, else
    with the pre-cached offline document when it is in the cache, else
    with the minimal inline HTML document, whose status is 503. *)
Theorem navigation_fallback_chain request w :
  network_down w = true →
  (handleNavigationRequest request w).1 =
    Return
      match storage_match (request_key request) (w_caches w) with
      | Some cached => cached
      | None =>
          match storage_match
                  (request_key (url_request (w_location_origin w) OFFLINE_URL))
                  (w_caches w) with
          | Some offline => offline
          | None => offline_html_response
          end
      end
  ∧ status offline_html_response = 503
  ∧ content_type offline_html_response = "text/html".
Proof.
  intros Hdown. rewrite handleNavigationRequest_down by done. simpl.
  split; [|done].
  destruct (storage_match (request_key request) (w_caches w)); [done|].
  simpl. by destruct (storage_match _ (w_caches w)).
Qed.

Lemma navigation_fallback_chain_witness :
  (handleNavigationRequest search_page_get offline_world).1 =
    Return offline_html_response
  ∧ status offline_html_response = 503
  ∧ content_type offline_html_response = "text/html".
Proof.
  apply (navigation_fallback_chain search_page_get offline_world).
  reflexivity.
Defined.

(** C2, as the worker implements it: when the network request of an API
    request that is not a GET fails, the caller receives the synthesized
    offline response (JSON, status 503) and not the network error; the
    cache is left alone and not even consulted.  Whatever the outcome,
    the API strategy consults the cache only for a GET. *)
Theorem api_failure_policy request w :
  (req_method request ≠ GET → network_down w = true →
   handleApiRequest request w =
     (Return offline_api_response,
      set_network (tail (w_network w)) (emit (EvFetch request) w))
   ∧ status offline_api_response = 503)
  ∧ ∃ added, appended w (handleApiRequest request w).2 added
             ∧ ∀ key, EvCachesMatch key ∈ added → req_method request = GET.
Proof.
  split.
  - intros Hm Hdown. rewrite handleApiRequest_down by done. simpl.
    by rewrite bool_decide_eq_false_2.
  - destruct (network_cases w) as [Hdown | (r & rest & Hup)].
    + rewrite handleApiRequest_down by done. simpl.
      destruct (bool_decide (req_method request = GET)) eqn:Hget.
      * exists [EvFetch request; EvCachesMatch (request_key request)].
        split; [unfold appended; simpl; by rewrite <- app_assoc|].
        intros _ _. by apply bool_decide_eq_true in Hget.
      * exists [EvFetch request]. split; [done|].
        intros key Hin. apply list_elem_of_singleton in Hin. discriminate.
    + rewrite (handleApiRequest_up _ _ _ _ Hup). simpl.
      destruct (_ && _ && ok r).
      * exists [EvFetch request; EvCachePut CACHE_NAME (request_key request)].
        split; [unfold appended; simpl; by rewrite <- app_assoc|].
        intros key Hin. apply elem_of_cons in Hin as [Hin|Hin]; [discriminate|].
        apply list_elem_of_singleton in Hin. discriminate.
      * exists [EvFetch request]. split; [done|].
        intros key Hin. apply list_elem_of_singleton in Hin. discriminate.
Qed.

Lemma api_failure_policy_witness :
  handleApiRequest save_case_post offline_world =
    (Return offline_api_response,
     set_network [] (emit (EvFetch save_case_post) offline_world))
  ∧ status offline_api_response = 503.
Proof.
  apply (proj1 (api_failure_policy save_case_post offline_world)).
  - discriminate.
  - reflexivity.
Defined.

(** C2 as stated fails: a POST to the API whose network request fails is
    answered by the fetch listener with the synthesized offline response;
    no error reaches the caller. *)
Lemma api_post_failure_not_raised :
  route_class save_case_post = ApiClass
  ∧ req_method save_case_post = POST
  ∧ network_down offline_world = true
  ∧ (onFetch save_case_post offline_world).1 = Return offline_api_response
  ∧ ¬ ∃ e, (onFetch save_case_post offline_world).1 = Throw e.
Proof.
  repeat split; try reflexivity.
  intros [e He]. vm_compute in He. discriminate.
Qed.

(** The API strategy writes to the cache only for a GET answered with an
    ok status. *)
Lemma api_cache_write request w :
  w_caches (handleApiRequest request w).2 ≠ w_caches w →
  req_method request = GET
  ∧ ∃ r rest, w_network w = Responds r :: rest ∧ ok r = true.
Proof.
  destruct (network_cases w) as [Hdown | (r & rest & Hup)].
  - rewrite handleApiRequest_down by done. simpl.
    by destruct (bool_decide _).
  - rewrite (handleApiRequest_up _ _ _ _ Hup). simpl.
    destruct (bool_decide (req_method request = GET)) eqn:Hget;
      [|by rewrite andb_false_r].
    destruct (ok r) eqn:Hok; [|by rewrite andb_false_r].
    intros _. apply bool_decide_eq_true in Hget. eauto.
Qed.

(** So does the static-asset strategy. *)
Lemma static_cache_write request w :
  w_caches (handleStaticRequest request w).2 ≠ w_caches w →
  req_method request = GET
  ∧ ∃ r rest, w_network w = Responds r :: rest ∧ ok r = true.
Proof.
  destruct (storage_match (request_key request) (w_caches w)) as [c|] eqn:Hm.
  - by rewrite (handleStaticRequest_hit _ _ _ Hm).
  - destruct (network_cases w) as [Hdown | (r & rest & Hup)].
    + by rewrite handleStaticRequest_miss_down.
    + rewrite (handleStaticRequest_miss_up _ _ _ _ Hm Hup). simpl.
      destruct (ok r) eqn:Hok; simpl; [|done].
      destruct (bool_decide (req_method request = GET)) eqn:Hget; [|done].
      intros _. apply bool_decide_eq_true in Hget. eauto.
Qed.

(** The navigation strategy writes only for an ok status, but it does
    not look at the method. *)
Lemma navigation_cache_write request w :
  w_caches (handleNavigationRequest request w).2 ≠ w_caches w →
  ∃ r rest, w_network w = Responds r :: rest ∧ ok r = true.
Proof.
  destruct (network_cases w) as [Hdown | (r & rest & Hup)].
  - rewrite handleNavigationRequest_down by done. simpl.
    by destruct (storage_match _ _).
  - rewrite (handleNavigationRequest_up _ _ _ _ Hup). simpl.
    destruct (ok r) eqn:Hok; [|done]. eauto.
Qed.

Lemma cached_open (name : string) cs key r :
  cached (storage_open name cs) key r → cached cs key r.
Proof.
  unfold storage_open. destruct (bool_decide _); [done|].
  intros (n & c & Hin & Hc). apply elem_of_app in Hin as [Hin|Hin].
  - by exists n, c.
  - apply list_elem_of_singleton in Hin. injection Hin as -> ->.
    by rewrite lookup_empty in Hc.
Qed.

Lemma cached_try_put (name : string) request r' cs key r :
  cached (storage_try_put name request r' cs) key r →
  cached cs key r
  ∨ (put_accepts request r' = true ∧ key = request_key request ∧ r = r').
Proof.
  unfold storage_try_put. destruct (put_accepts request r'); [|by left].
  intros (n & c & Hin & Hc). unfold storage_put in Hin.
  apply list_elem_of_fmap in Hin as ([n0 c0] & Heq & Hin). simpl in Heq.
  destruct (bool_decide (n0 = name)); injection Heq as -> ->.
  - destruct (decide (request_key request = key)) as [<-|Hne].
    + rewrite lookup_insert_eq in Hc. injection Hc as <-. by right.
    + rewrite lookup_insert_ne in Hc by done. left. by exists n0, c0.
  - left. by exists n0, c0.
Qed.

Lemma put_accepts_GET request r :
  put_accepts request r = true → req_method request = GET.
Proof.
  unfold put_accepts. intros H. apply andb_true_iff in H as [H _].
  by apply bool_decide_eq_true in H.
Qed.

Lemma api_entries request w key r :
  cached (w_caches (handleApiRequest request w).2) key r →
  entry_allowed request w key r.
Proof.
  destruct (network_cases w) as [Hdown | (r' & rest & Hup)].
  - rewrite handleApiRequest_down by done. simpl.
    destruct (bool_decide _); simpl; by left.
  - rewrite (handleApiRequest_up _ _ _ _ Hup). cbv zeta.
    destruct (ok r') eqn:Hok; [|rewrite andb_false_r; simpl; by left].
    destruct (_ && _ && true); [|simpl; by left]. simpl.
    intros Hc. apply cached_try_put in Hc as [Hc|(Hacc & -> & ->)].
    + left. by eapply cached_open.
    + right. split; [by eapply put_accepts_GET|]. eauto.
Qed.

Lemma navigation_entries request w key r :
  cached (w_caches (handleNavigationRequest request w).2) key r →
  entry_allowed request w key r.
Proof.
  destruct (network_cases w) as [Hdown | (r' & rest & Hup)].
  - rewrite handleNavigationRequest_down by done. simpl.
    destruct (storage_match _ _); simpl; by left.
  - rewrite (handleNavigationRequest_up _ _ _ _ Hup). cbv zeta.
    destruct (ok r') eqn:Hok; [|simpl; by left]. simpl.
    intros Hc. apply cached_try_put in Hc as [Hc|(Hacc & -> & ->)].
    + left. by eapply cached_open.
    + right. split; [by eapply put_accepts_GET|]. eauto.
Qed.

Lemma static_entries request w key r :
  cached (w_caches (handleStaticRequest request w).2) key r →
  entry_allowed request w key r.
Proof.
  destruct (storage_match (request_key request) (w_caches w)) as [c|] eqn:Hm.
  - rewrite (handleStaticRequest_hit _ _ _ Hm). simpl. by left.
  - destruct (network_cases w) as [Hdown | (r' & rest & Hup)].
    + rewrite handleStaticRequest_miss_down by done. simpl. by left.
    + rewrite (handleStaticRequest_miss_up _ _ _ _ Hm Hup). cbv zeta.
      destruct (ok r') eqn:Hok; [|simpl; by left].
      destruct (true && _); [|simpl; by left]. simpl.
      intros Hc. apply cached_try_put in Hc as [Hc|(Hacc & -> & ->)].
      * left. by eapply cached_open.
      * right. split; [by eapply put_accepts_GET|]. eauto.
Qed.

Lemma fetch_caches request w : w_caches (fetch request w).2 = w_caches w.
Proof. unfold fetch. by destruct (w_network w) as [|[|r] rest]. Qed.

(** C3: whatever the request, its route class and the outcome of the
    network request, a response found in cache storage after the fetch
    listener has run was there before, or it is the answer to this request,
    the request is a GET and the answer has an ok (2xx) status.  In
    particular a request that is not a GET leaves no new entry. *)
Theorem cache_entry_only_for_ok_get request w key r :
  cached (w_caches (onFetch request w).2) key r →
  (cached (w_caches w) key r
   ∨ (req_method request = GET
      ∧ key = request_key request
      ∧ ok r = true
      ∧ ∃ rest, w_network w = Responds r :: rest))
  ∧ (req_method request ≠ GET → cached (w_caches w) key r).
Proof.
  intros Hc.
  assert (entry_allowed request w key r) as Hallowed.
  { unfold onFetch in Hc.
    unfold mbind, SWM_bind, location_origin in Hc.
    destruct (bool_decide (req_origin request ≠ w_location_origin w)).
    - left. by rewrite fetch_caches in Hc.
    - unfold handle in Hc. destruct (route_class request).
      + by apply api_entries.
      + by apply navigation_entries.
      + by apply static_entries. }
  split; [exact Hallowed|].
  intros Hne. destruct Hallowed as [?|(Hget & _)]; [done|]. by destruct Hne.
Qed.

Lemma storage_open_has (name : string) cs :
  ∃ c : Cache, (name, c) ∈ storage_open name cs.
Proof.
  unfold storage_open. destruct (bool_decide (name ∈ storage_names cs)) eqn:Hin.
  - apply bool_decide_eq_true in Hin. unfold storage_names in Hin.
    apply list_elem_of_fmap in Hin as ([n c] & -> & Hin). by exists c.
  - exists ∅. apply elem_of_app. right. by left.
Qed.

Lemma cached_put (name : string) (c : Cache) key r cs :
  (name, c) ∈ cs → cached (storage_put name key r cs) key r.
Proof.
  intros Hin. exists name, (<[key := r]> c). split; [|apply lookup_insert_eq].
  unfold storage_put. apply list_elem_of_fmap. exists (name, c).
  split; [|done]. simpl. by rewrite bool_decide_eq_true_2.
Qed.

(** The other direction for the API: the ok answer to a same-origin GET of
    an allow-listed route is in cache storage afterwards, unless its
    status is 206, which the cache refuses. *)
Lemma api_get_is_cached request r rest w :
  req_origin request = w_location_origin w →
  route_class request = ApiClass →
  req_method request = GET →
  existsb (λ route, includes route (req_pathname request)) API_CACHE_ROUTES = true →
  ok r = true →
  status r ≠ 206 →
  w_network w = Responds r :: rest →
  cached (w_caches (onFetch request w).2) (request_key request) r.
Proof.
  intros Horigin Hclass Hget Hroute Hok H206 Hup.
  unfold onFetch, mbind, SWM_bind, location_origin.
  rewrite bool_decide_eq_false_2 by (intros Hne; by apply Hne).
  unfold handle. rewrite Hclass.
  rewrite (handleApiRequest_up _ _ _ _ Hup). cbv zeta.
  rewrite Hroute, Hok, bool_decide_eq_true_2 by done. simpl.
  unfold storage_try_put, put_accepts.
  rewrite bool_decide_eq_true_2 by done.
  replace (status r =? 206) with false by (symmetry; by apply Z.eqb_neq).
  simpl. destruct (storage_open_has CACHE_NAME (w_caches w)) as [c Hc].
  by eapply cached_put.
Qed.

Lemma cache_entry_only_for_ok_get_witness :
  (cached (w_caches (set_network [Responds wards_200] offline_world))
          (request_key wards_get) wards_200
   ∨ (req_method wards_get = GET
      ∧ request_key wards_get = request_key wards_get
      ∧ ok wards_200 = true
      ∧ ∃ rest, w_network (set_network [Responds wards_200] offline_world)
                = Responds wards_200 :: rest))
  ∧ (req_method wards_get ≠ GET →
     cached (w_caches (set_network [Responds wards_200] offline_world))
            (request_key wards_get) wards_200).
Proof.
  apply (cache_entry_only_for_ok_get wards_get
           (set_network [Responds wards_200] offline_world)
           (request_key wards_get) wards_200).
  apply (api_get_is_cached wards_get wards_200 []); try reflexivity.
  discriminate.
Defined.

(** The form posted by a navigation and answered with status 200: the
    handler does call [cache.put], the cache refuses the POST request, and
    nothing can be retrieved for it afterwards. *)
Lemma navigation_post_put_is_refused :
  let w := set_network [Responds page_200] offline_world in
  let w' := (onFetch form_post w).2 in
  route_class form_post = NavigationClass
  ∧ req_method form_post = POST
  ∧ EvCachePut CACHE_NAME (request_key form_post) ∈ w_log w'
  ∧ storage_match (request_key form_post) (w_caches w') = None.
Proof.
  repeat split; try (vm_compute; reflexivity).
  vm_compute. apply elem_of_cons. right. by left.
Qed.

End FetchClaims.

(* --------------------------------------------------------------------- *)
(** ** The queue of pending actions *)
(* --------------------------------------------------------------------- *)

Section PendingQueue.

Implicit Types (db : Database) (rows : list PendingAction) (w : World).

Lemma keys_ascending_weaken lo lo' rows :
  (lo' ≤ lo)%N → keys_ascending lo rows → keys_ascending lo' rows.
Proof. destruct rows as [|a rows]; simpl; [done|]. intros ? [? ?]. split; [lia|done]. Qed.

Lemma keys_ascending_ge lo rows a :
  keys_ascending lo rows → a ∈ rows → (lo ≤ pa_id a)%N.
Proof.
  revert lo. induction rows as [|b rows IH]; intros lo Hasc Hin.
  - by apply elem_of_nil in Hin.
  - destruct Hasc as [Hlo Hasc].
    apply elem_of_cons in Hin as [->|Hin]; [done|].
    specialize (IH _ Hasc Hin). lia.
Qed.

Lemma keys_ascending_filter (P : PendingAction → Prop)
    `{!∀ a, Decision (P a)} lo rows :
  keys_ascending lo rows → keys_ascending lo (filter P rows).
Proof.
  revert lo. induction rows as [|b rows IH]; intros lo Hasc; [done|].
  destruct Hasc as [Hlo Hasc]. rewrite filter_cons.
  destruct (decide (P b)).
  - split; [done|]. by apply IH.
  - apply IH. eapply keys_ascending_weaken; [|done]. lia.
Qed.

(** A record whose key is above every key in use goes to the end. *)
Lemma insert_by_key_last a rows :
  Forall (λ b, (pa_id b < pa_id a)%N) rows →
  Idb.insert_by_key a rows = rows ++ [a].
Proof.
  induction 1 as [|b rows Hb _ IH]; [done|]. simpl.
  destruct (N.ltb_spec (pa_id a) (pa_id b)); [lia|]. by rewrite IH.
Qed.

Lemma keys_ascending_snoc lo rows a :
  keys_ascending lo rows →
  Forall (λ b, (pa_id b < pa_id a)%N) rows →
  (lo ≤ pa_id a)%N →
  keys_ascending lo (rows ++ [a]).
Proof.
  revert lo. induction rows as [|b rows IH]; intros lo Hasc Hall Hlo; simpl.
  - done.
  - destruct Hasc as [Hb Hasc]. apply Forall_cons in Hall as [Hba Hall].
    split; [done|]. apply IH; [done|done|lia].
Qed.

Lemma empty_wf : pending_wf Idb.empty.
Proof. split; [done | constructor]. Qed.

Lemma add_wf type data now db :
  pending_wf db →
  db_pending (Idb.add type data now db) =
    db_pending db ++ [mkPendingAction (db_key_generator db) type data now]
  ∧ pending_wf (Idb.add type data now db).
Proof.
  intros [Hasc Hbound]. unfold Idb.add. simpl.
  rewrite insert_by_key_last by done. split; [done|].
  split; simpl.
  - apply keys_ascending_snoc; [done|done|simpl; lia].
  - apply Forall_app. split.
    + eapply Forall_impl; [done|]. simpl. intros; lia.
    + apply Forall_singleton. simpl. lia.
Qed.

Lemma delete_wf id db : pending_wf db → pending_wf (Idb.delete id db).
Proof.
  intros [Hasc Hbound]. split; simpl.
  - by apply keys_ascending_filter.
  - apply Forall_forall. intros a Ha.
    apply list_elem_of_filter in Ha as [_ Ha].
    by apply (proj1 (Forall_forall _ _) Hbound).
Qed.

(** The record is added whatever the browser does with the sync tag; the
    tag is registered only where background sync registers. *)
Lemma queueOfflineAction_run type data now w :
  queueOfflineAction type data now w =
  (Return tt,
   let w1 := set_db (Idb.add type data now (w_db w)) w in
   match w_sync w with
   | SyncRegisters => emit (EvSyncRegister ("sync-" +:+ type)) w1
   | _ => w1
   end).
Proof.
  unfold queueOfflineAction, requestBackgroundSync, sync_supported, sync_register.
  run_swm. destruct w as [o cs d net lg sy]. by destruct sy.
Qed.

Lemma queueOfflineAction_db type data now w :
  w_db (queueOfflineAction type data now w).2 = Idb.add type data now (w_db w).
Proof. rewrite queueOfflineAction_run. simpl. by destruct (w_sync w). Qed.

Lemma enqueue_all_run kind items w :
  pending_wf (w_db w) →
  ∃ w', enqueue_all kind items w = (Return tt, w')
        ∧ db_pending (w_db w') =
            db_pending (w_db w)
            ++ stamped (db_key_generator (w_db w)) kind items
        ∧ pending_wf (w_db w').
Proof.
  revert w. induction items as [|item items IH]; intros w Hwf.
  - exists w. simpl. by rewrite app_nil_r.
  - unfold enqueue_all. rewrite for_of_cons. cbv beta.
    pose proof (queueOfflineAction_db kind item.1 item.2 w) as Hdb.
    destruct (queueOfflineAction kind item.1 item.2 w) as [out w1] eqn:Hq.
    assert (out = Return tt) as ->
      by (rewrite queueOfflineAction_run in Hq; by injection Hq).
    simpl in Hdb.
    destruct (add_wf kind item.1 item.2 (w_db w) Hwf) as [Hrows Hwf1].
    rewrite <- Hdb in Hrows, Hwf1.
    destruct (IH w1) as (w' & Hrun & Hrows' & Hwf'); [done|].
    exists w'. split; [exact Hrun|]. split; [|done].
    rewrite Hrows', Hrows, Hdb. simpl. by rewrite <- app_assoc.
Qed.

Lemma stamped_items next kind items :
  (λ a, (pa_data a, pa_timestamp a)) <$> stamped next kind items = items
  ∧ Forall (λ a, pa_type a = kind) (stamped next kind items).
Proof.
  revert next. induction items as [|[data now] items IH]; intros next.
  - split; [done | constructor].
  - destruct (IH (next + 1)%N) as [Hdata Hkind]. simpl. split.
    + f_equal. exact Hdata.
    + by constructor.
Qed.

(** Deleting the key of the first listed record leaves the rest of the
    listing. *)
Lemma relist_after_remove (P : PendingAction → Prop)
    `{!∀ a, Decision (P a)} lo rows first rest :
  keys_ascending lo rows →
  filter P rows = first :: rest →
  filter P (filter (λ b, pa_id b ≠ pa_id first) rows) = rest.
Proof.
  revert lo. induction rows as [|b rows IH]; intros lo Hasc Hlist; [done|].
  destruct Hasc as [Hlo Hasc]. rewrite filter_cons in Hlist.
  destruct (decide (P b)) as [Hb|Hb].
  - injection Hlist as -> <-.
    rewrite filter_cons_False by (intros Hne; by apply Hne).
    rewrite (filter_all (λ b, pa_id b ≠ pa_id first)); [done|].
    intros a Ha Heq. pose proof (keys_ascending_ge _ _ _ Hasc Ha). lia.
  - rewrite filter_cons. destruct (decide (pa_id b ≠ pa_id first)).
    + rewrite filter_cons_False by done. by eapply IH.
    + by eapply IH.
Qed.

End PendingQueue.

Section QueueClaims.

Implicit Types (w : World).

(** C4: after enqueuing items of one kind, listing that kind returns what
    was pending before followed by exactly the enqueued items, in the
    order of their enqueuing; what was pending before is the records of
    that kind already in the store, in key order, and no record of
    another kind is listed; removing the first listed item and listing
    again returns the remaining items in the same relative order. *)
Theorem pending_listing_in_enqueue_order (kind : string)
    (items : list (string * N)) w :
  pending_wf (w_db w) →
  let w' := (enqueue_all kind items w).2 in
  ∃ before added,
    before = filter (λ a, pa_type a = kind) (Idb.getAll (w_db w))
    ∧ (getPendingActions tt kind w).1 = Return before
    ∧ (getPendingActions tt kind w').1 = Return (before ++ added)
    ∧ (λ a, (pa_data a, pa_timestamp a)) <$> added = items
    ∧ Forall (λ a, pa_type a = kind) added
    ∧ Forall (λ a, pa_type a = kind) (before ++ added)
    ∧ (∀ a, a ∈ before ++ added ↔
              a ∈ Idb.getAll (w_db w') ∧ pa_type a = kind)
    ∧ ∀ first rest,
        before ++ added = first :: rest →
        (getPendingActions tt kind
           (removePendingAction tt kind (pa_id first) w').2).1 = Return rest.
Proof.
  intros Hwf.
  destruct (enqueue_all_run kind items w Hwf) as (w' & Hrun & Hrows & Hwf').
  rewrite Hrun. simpl.
  destruct (stamped_items (db_key_generator (w_db w)) kind items)
    as [Hdata Hkind].
  exists (filter (λ a, pa_type a = kind) (db_pending (w_db w))),
         (stamped (db_key_generator (w_db w)) kind items).
  assert (filter (λ a, pa_type a = kind) (db_pending (w_db w')) =
          filter (λ a, pa_type a = kind) (db_pending (w_db w))
          ++ stamped (db_key_generator (w_db w)) kind items) as Hlist.
  { rewrite Hrows, filter_app. f_equal. apply filter_all.
    intros a Ha. by apply (proj1 (Forall_forall _ _) Hkind). }
  split; [done|]. split; [done|]. split; [unfold Idb.getAll; by rewrite Hlist|].
  split; [done|]. split; [done|]. split; [|split].
  - apply Forall_app. split; [|done].
    apply Forall_forall. intros a Ha.
    by apply list_elem_of_filter in Ha as [Ha _].
  - intros a. unfold Idb.getAll. rewrite <- Hlist.
    rewrite list_elem_of_filter. tauto.
  - intros first rest Heq. f_equal.
    destruct Hwf' as [Hasc _].
    eapply relist_after_remove; [exact Hasc|]. by rewrite Hlist.
Qed.

(** From the empty store the listing is exactly the enqueued items. *)
Lemma fresh_queue_lists_enqueued (kind : string) (items : list (string * N)) w :
  w_db w = Idb.empty →
  (getPendingActions tt kind (enqueue_all kind items w).2).1
  = Return (stamped 1 kind items).
Proof.
  intros Hempty.
  assert (pending_wf (w_db w)) as Hwf by (rewrite Hempty; apply empty_wf).
  destruct (enqueue_all_run kind items w Hwf) as (w' & Hrun & Hrows & _).
  rewrite Hrun. simpl. unfold Idb.getAll. rewrite Hrows, Hempty. simpl.
  f_equal. apply filter_all. intros a Ha.
  by apply (proj1 (Forall_forall _ _) (proj2 (stamped_items 1 kind items))).
Qed.

Lemma pending_listing_in_enqueue_order_witness :
  let w' := (enqueue_all "saved-cases" [("a", 30%N); ("b", 40%N); ("c", 50%N)]
               mixed_queue).2 in
  ∃ before added,
    before = filter (λ a, pa_type a = "saved-cases")
                    (Idb.getAll (w_db mixed_queue))
    ∧ (getPendingActions tt "saved-cases" mixed_queue).1 = Return before
    ∧ (getPendingActions tt "saved-cases" w').1 = Return (before ++ added)
    ∧ (λ a, (pa_data a, pa_timestamp a)) <$> added
        = [("a", 30%N); ("b", 40%N); ("c", 50%N)]
    ∧ Forall (λ a, pa_type a = "saved-cases") added
    ∧ Forall (λ a, pa_type a = "saved-cases") (before ++ added)
    ∧ (∀ a, a ∈ before ++ added ↔
              a ∈ Idb.getAll (w_db w') ∧ pa_type a = "saved-cases")
    ∧ ∀ first rest,
        before ++ added = first :: rest →
        (getPendingActions tt "saved-cases"
           (removePendingAction tt "saved-cases" (pa_id first) w').2).1
        = Return rest.
Proof.
  apply (pending_listing_in_enqueue_order "saved-cases"
           [("a", 30%N); ("b", 40%N); ("c", 50%N)] mixed_queue).
  split; [vm_compute; repeat split; discriminate | repeat constructor].
Defined.

(** C8: removing an id that no queued item has raises no error and
    changes nothing; removing an id a second time changes nothing more;
    and a removal never touches an item with another id. *)
Theorem removal_is_idempotent (type : string) (id : N) w :
  (id ∉ pa_id <$> Idb.getAll (w_db w) →
   removePendingAction tt type id w = (Return tt, w))
  ∧ (let once := removePendingAction tt type id w in
     removePendingAction tt type id once.2 = once)
  ∧ ∀ a, a ∈ Idb.getAll (w_db (removePendingAction tt type id w).2)
         ↔ a ∈ Idb.getAll (w_db w) ∧ pa_id a ≠ id.
Proof.
  unfold removePendingAction, Idb.getAll. simpl. split; [|split].
  - intros Hfresh. f_equal.
    destruct w as [o cs [gen rows saved] net lg sy]. unfold set_db. simpl.
    f_equal. unfold Idb.delete. simpl. f_equal.
    apply filter_all. intros a Ha Heq. apply Hfresh.
    simpl. apply list_elem_of_fmap. by exists a.
  - f_equal. unfold set_db, Idb.delete. simpl. do 2 f_equal.
    apply filter_all. intros a Ha.
    by apply list_elem_of_filter in Ha as [Hne _].
  - intros a. rewrite list_elem_of_filter. tauto.
Qed.

Lemma removal_is_idempotent_witness :
  let w := (removePendingAction tt "saved-cases" 1%N two_queued).2 in
  pa_id <$> Idb.getAll (w_db two_queued) = [1%N; 2%N]
  ∧ pa_id <$> Idb.getAll (w_db w) = [2%N]
  ∧ removePendingAction tt "saved-cases" 1%N w = (Return tt, w).
Proof.
  split; [reflexivity|]. split; [reflexivity|].
  apply (proj1 (removal_is_idempotent "saved-cases" 1%N
                  (removePendingAction tt "saved-cases" 1%N two_queued).2)).
  intros Hin. vm_compute in Hin.
  apply list_elem_of_singleton in Hin. discriminate.
Defined.

End QueueClaims.

(* --------------------------------------------------------------------- *)
(** ** Reconciliation *)
(* --------------------------------------------------------------------- *)

Section Reconciliation.

Implicit Types (w : World) (items : list PendingAction).

(** The replay loop is a left fold of [drain_step]; it never throws. *)
Lemma replay_loop (path : string) (body : PendingAction → SWM unit) items w :
  (∀ save w0, body save w0 = (Return tt, drain_step path w0 save)) →
  for_of items body w = (Return tt, foldl (drain_step path) w items).
Proof.
  intros Hbody. revert w. induction items as [|a items IH]; intros w; [done|].
  rewrite for_of_cons, Hbody. apply IH.
Qed.

Lemma syncSavedCases_run w :
  syncSavedCases w =
  (Return tt,
   foldl (drain_step "/api/v1/users/saved-cases") w
         (filter (λ a, pa_type a = "saved-cases") (Idb.getAll (w_db w)))).
Proof.
  unfold syncSavedCases, try_catch, openDatabase.
  unfold mbind at 1, SWM_bind at 1, mret at 1, SWM_ret at 1.
  unfold mbind at 1, SWM_bind at 1, getPendingActions at 1.
  rewrite (replay_loop "/api/v1/users/saved-cases"); [done|].
  intros save w0. run_swm. unfold fetch, drain_step.
  by destruct (w_network w0) as [|[|r] rest].
Qed.

Lemma syncSearchHistory_run w :
  syncSearchHistory w =
  (Return tt,
   foldl (drain_step "/api/v1/users/search-history") w
         (filter (λ a, pa_type a = "search-history") (Idb.getAll (w_db w)))).
Proof.
  unfold syncSearchHistory, try_catch, openDatabase.
  unfold mbind at 1, SWM_bind at 1, mret at 1, SWM_ret at 1.
  unfold mbind at 1, SWM_bind at 1, getPendingActions at 1.
  rewrite (replay_loop "/api/v1/users/search-history"); [done|].
  intros save w0. run_swm. unfold fetch, drain_step.
  by destruct (w_network w0) as [|[|r] rest].
Qed.

Lemma drain_step_origin path w save :
  w_location_origin (drain_step path w save) = w_location_origin w.
Proof. unfold drain_step. by destruct (w_network w) as [|[|r] rest]. Qed.

Lemma drain_step_log path w save :
  w_log (drain_step path w save) =
  w_log w ++ [EvFetch (post_request (w_location_origin w) path (pa_data save))].
Proof. unfold drain_step. by destruct (w_network w) as [|[|r] rest]. Qed.

(** Every listed item gets its replay attempt, in listing order, whatever
    happened to the items before it. *)
Lemma drain_attempts_every_item path items w :
  w_log (foldl (drain_step path) w items) =
  w_log w
  ++ ((λ a, EvFetch (post_request (w_location_origin w) path (pa_data a)))
        <$> items).
Proof.
  revert w. induction items as [|a items IH]; intros w; simpl.
  - by rewrite app_nil_r.
  - rewrite IH, drain_step_origin, drain_step_log. by rewrite <- app_assoc.
Qed.

(** The records left by a drain: those whose id is not the id of an item
    whose POST was answered. *)
Lemma drain_pending path items w :
  db_pending (w_db (foldl (drain_step path) w items)) =
  filter (λ a, pa_id a ∉ answered items (w_network w)) (db_pending (w_db w)).
Proof.
  revert w. induction items as [|a items IH]; intros w; simpl.
  - symmetry. apply filter_all. intros b _. apply not_elem_of_nil.
  - rewrite IH. unfold drain_step.
    destruct (w_network w) as [|[|r] rest] eqn:Hnet; simpl;
      rewrite ?Hnet; try done.
    rewrite list_filter_filter. apply list_filter_iff.
    intros b. rewrite not_elem_of_cons. tauto.
Qed.

(** An item whose replay is rejected by the network stays queued, and
    so does every item of another kind, ids being unique. *)
Lemma drain_keeps_unanswered path items w a :
  a ∈ db_pending (w_db w) →
  pa_id a ∉ answered items (w_network w) →
  a ∈ db_pending (w_db (foldl (drain_step path) w items)).
Proof.
  intros Ha Hn. rewrite drain_pending. by apply list_elem_of_filter.
Qed.

(** What a drain leaves in the queue, for both sync functions. *)
Lemma syncSavedCases_pending w :
  db_pending (w_db (syncSavedCases w).2) =
  filter (λ a, pa_id a ∉
               answered (filter (λ a, pa_type a = "saved-cases") (Idb.getAll (w_db w)))
                        (w_network w))
         (db_pending (w_db w)).
Proof. rewrite syncSavedCases_run. apply drain_pending. Qed.

Lemma syncSearchHistory_pending w :
  db_pending (w_db (syncSearchHistory w).2) =
  filter (λ a, pa_id a ∉
               answered (filter (λ a, pa_type a = "search-history") (Idb.getAll (w_db w)))
                        (w_network w))
         (db_pending (w_db w)).
Proof. rewrite syncSearchHistory_run. apply drain_pending. Qed.

(** C1 at the failing input: of two queued saved cases the first replay
    is answered with status 500 and the second with 201; the drain
    removes both, so the first is not retried on the next trigger.  The
    drain of the search history does the same. *)
Theorem sync_drops_item_answered_with_500 :
  let saves w := (getPendingActions tt "saved-cases" w).1 in
  let searches w := (getPendingActions tt "search-history" w).1 in
  w_network two_queued = [Responds error_500; Responds created_201]
  ∧ ok error_500 = false
  ∧ pa_id <$> Idb.getAll (w_db two_queued) = [1%N; 2%N]
  ∧ (onSync "sync-saved-cases" two_queued).1 = Return tt
  ∧ saves (onSync "sync-saved-cases" two_queued).2 = Return []
  ∧ w_network two_searches_queued = [Responds error_500; Responds created_201]
  ∧ pa_id <$> Idb.getAll (w_db two_searches_queued) = [1%N; 2%N]
  ∧ searches (onSync "sync-search-history" two_searches_queued).2 = Return [].
Proof. repeat split; vm_compute; reflexivity. Qed.

End Reconciliation.

(* --------------------------------------------------------------------- *)
(** ** Push notifications *)
(* --------------------------------------------------------------------- *)

Section Push.

Implicit Types (w : World).

(** A push without payload is displayed with every default. *)
Lemma push_without_payload w :
  onPush None w = (Return tt, emit (EvShowNotification default_notification) w).
Proof. reflexivity. Qed.

(** A payload that is not JSON becomes the body; the rest is default. *)
Lemma push_plain_text text w :
  onPush (Some (mkPushMessageData None text)) w =
  (Return tt,
   emit (EvShowNotification
           (mkNotification (Some "Planning Precedent AI") (Some text)
                           "/icons/icon-192x192.png" "/icons/badge-72x72.png"
                           [100; 50; 100]%N "{}" [])) w).
Proof. reflexivity. Qed.

(** A JSON object is displayed with its own title and body, also when it
    has none; icon and badge fall back to the defaults. *)
Lemma push_json_object o text w :
  onPush (Some (mkPushMessageData (Some (JsObject o)) text)) w =
  (Return tt,
   emit (EvShowNotification
           (mkNotification (pf_title o) (pf_body o)
                           (or_default (pf_icon o) "/icons/icon-192x192.png")
                           (or_default (pf_badge o) "/icons/badge-72x72.png")
                           [100; 50; 100]%N
                           (default "{}" (pf_data o))
                           (default [] (pf_actions o)))) w).
Proof. reflexivity. Qed.

(** C7 at the failing input: a JSON payload with a body and no title is
    displayed without a title, not with the default one. *)
Theorem push_json_without_title_shows_no_title :
  pmd_json body_only_push
    = Some (JsObject (mkPushFields None (Some "Decision issued") None None None None))
  ∧ onPush (Some body_only_push) offline_world =
      (Return tt,
       emit (EvShowNotification
               (mkNotification None (Some "Decision issued")
                               "/icons/icon-192x192.png" "/icons/badge-72x72.png"
                               [100; 50; 100]%N "{}" []))
            offline_world)
  ∧ n_title default_notification = Some "Planning Precedent AI".
Proof. repeat split. Qed.

End Push.

(* --------------------------------------------------------------------- *)
(** ** Saved cases *)
(* --------------------------------------------------------------------- *)

Section SavedCases.

Implicit Types (w : World) (db : Database) (cases : list PlanningDecision).

Lemma keyed_references (l : list (string * OfflineCase)) :
  (∀ k c, (k, c) ∈ l → oc_reference c = k) →
  oc_reference <$> l.*2 = l.*1.
Proof.
  induction l as [|[k c] l IH]; intros Hkeyed; [done|]. simpl. f_equal.
  - apply Hkeyed. by left.
  - apply IH. intros k' c' Hin. apply Hkeyed. by right.
Qed.

Lemma getAll_cases_NoDup db :
  keyed_by_reference db → NoDup (oc_reference <$> Idb.getAll_cases db).
Proof.
  intros Hkeyed. unfold Idb.getAll_cases. rewrite keyed_references.
  - apply NoDup_fst_map_to_list.
  - intros k c Hin. apply elem_of_map_to_list in Hin. by apply Hkeyed in Hin.
Qed.

Lemma saveCaseOffline_keyed caseData now w :
  keyed_by_reference (w_db w) →
  keyed_by_reference (w_db (saveCaseOffline caseData now w).2).
Proof.
  intros Hkeyed. unfold saveCaseOffline.
  destruct (cd_reference caseData) as [reference|]; [|done]. simpl.
  unfold keyed_by_reference. simpl. by apply map_Forall_insert_2.
Qed.

Lemma save_cases_offline_keyed saves w :
  keyed_by_reference (w_db w) →
  keyed_by_reference (w_db (save_cases_offline saves w)).
Proof.
  revert w. induction saves as [|s saves IH]; intros w Hkeyed; [done|].
  simpl. apply IH. by apply saveCaseOffline_keyed.
Qed.

Lemma isSaved_spec caseRef cases :
  isSaved caseRef cases = true ↔ caseRef ∈ case_reference <$> cases.
Proof.
  unfold isSaved. rewrite existsb_exists, list_elem_of_fmap. split.
  - intros (c & Hin & Heq). apply bool_decide_eq_true in Heq.
    exists c. split; [done|]. by apply list_elem_of_In.
  - intros (c & -> & Hin). exists c. split; [by apply list_elem_of_In|].
    by apply bool_decide_eq_true.
Qed.

Lemma addCase_known decision cases :
  case_reference decision ∈ case_reference <$> cases →
  addCase decision cases = cases.
Proof.
  intros Hin. apply isSaved_spec in Hin. unfold addCase.
  unfold isSaved in Hin. by rewrite Hin.
Qed.

Lemma addCase_new decision cases :
  case_reference decision ∉ case_reference <$> cases →
  addCase decision cases = cases ++ [decision].
Proof.
  intros Hnot. unfold addCase.
  destruct (existsb _ cases) eqn:Hex; [|done].
  exfalso. apply Hnot. by apply isSaved_spec.
Qed.

Lemma addCase_NoDup decision cases :
  NoDup (case_reference <$> cases) →
  NoDup (case_reference <$> addCase decision cases).
Proof.
  intros Hnd.
  destruct (decide (case_reference decision ∈ case_reference <$> cases)) as [Hin|Hnot].
  - by rewrite addCase_known.
  - rewrite addCase_new by done. rewrite fmap_app. apply NoDup_app.
    split; [done|]. split; [|apply NoDup_singleton].
    intros x Hx Hx'. apply list_elem_of_singleton in Hx'. by subst.
Qed.

Lemma add_cases_NoDup decisions cases :
  NoDup (case_reference <$> cases) →
  NoDup (case_reference <$> add_cases decisions cases).
Proof.
  revert cases. induction decisions as [|d ds IH]; intros cases Hnd; [done|].
  simpl. apply IH. by apply addCase_NoDup.
Qed.

(** C9 as the code implements it.  In the IndexedDB store a sequence of
    saves leaves at most one record per reference, and a save replaces
    what was stored under its reference: the last write wins.  In the
    saved-cases store a sequence of [addCase] leaves at most one case per
    case reference, and adding a case whose reference is already saved
    changes nothing: the first write is kept. *)
Theorem one_copy_per_case_reference :
  (∀ saves w, keyed_by_reference (w_db w) →
     NoDup (oc_reference <$> Idb.getAll_cases (w_db (save_cases_offline saves w))))
  ∧ (∀ reference fields now w,
       let w' := (saveCaseOffline (mkCaseData (Some reference) fields) now w).2 in
       db_saved_cases (w_db w') !! reference
         = Some (mkOfflineCase reference fields now)
       ∧ mkOfflineCase reference fields now ∈ Idb.getAll_cases (w_db w'))
  ∧ (∀ decisions, NoDup (case_reference <$> add_cases decisions []))
  ∧ (∀ decision cases,
       case_reference decision ∈ case_reference <$> cases →
       addCase decision cases = cases).
Proof.
  split; [|split; [|split]].
  - intros saves w Hkeyed.
    by apply getAll_cases_NoDup, save_cases_offline_keyed.
  - intros reference fields now w. simpl.
    assert (<[reference := mkOfflineCase reference fields now]>
              (db_saved_cases (w_db w)) !! reference
            = Some (mkOfflineCase reference fields now)) as Hl
      by apply lookup_insert_eq.
    split; [done|].
    unfold Idb.getAll_cases. simpl. apply list_elem_of_fmap.
    exists (reference, mkOfflineCase reference fields now).
    split; [done|]. by apply elem_of_map_to_list.
  - intros decisions. apply add_cases_NoDup. constructor.
  - apply addCase_known.
Qed.

Lemma one_copy_per_case_reference_witness :
  addCase decision_v2 [decision_v1] = [decision_v1]
  ∧ NoDup (oc_reference
             <$> Idb.getAll_cases
                   (w_db (save_cases_offline
                            [(mkCaseData (Some "2023/1234/P") "{'outcome':'Pending'}", 10%N);
                             (mkCaseData (Some "2023/1234/P") "{'outcome':'Granted'}", 20%N)]
                            offline_world))).
Proof.
  split.
  - apply (proj2 (proj2 (proj2 one_copy_per_case_reference))).
    simpl. by left.
  - apply (proj1 one_copy_per_case_reference).
    unfold keyed_by_reference. simpl. apply map_Forall_empty.
Defined.

(** C9 as stated fails in the saved-cases store: saving again a case that
    is already saved, with newer content, keeps the older content. *)
Lemma addCase_keeps_first_write :
  case_reference decision_v2 = case_reference decision_v1
  ∧ decision_v2 ≠ decision_v1
  ∧ addCase decision_v2 (addCase decision_v1 []) = [decision_v1]
  ∧ decision_v2 ∉ addCase decision_v2 (addCase decision_v1 []).
Proof.
  split; [done|]. split; [discriminate|]. split; [done|].
  intros Hin. vm_compute in Hin.
  apply list_elem_of_singleton in Hin. discriminate.
Qed.

End SavedCases.

(* --------------------------------------------------------------------- *)
(** ** Recent searches *)
(* --------------------------------------------------------------------- *)

Section RecentSearches.

Implicit Types (searches : list SearchEntry) (query : string).

Lemma queries_filter query searches :
  se_query <$> filter (λ s, se_query s ≠ query) searches =
  filter (λ q, q ≠ query) (se_query <$> searches).
Proof.
  induction searches as [|s searches IH]; [done|].
  rewrite fmap_cons, !filter_cons.
  destruct (decide (se_query s ≠ query)); [rewrite fmap_cons|]; by rewrite IH.
Qed.

Lemma addSearch_queries query now searches :
  se_query <$> addSearch query now searches =
  take 10 (query :: filter (λ q, q ≠ query) (se_query <$> searches)).
Proof.
  unfold addSearch. rewrite fmap_take. f_equal.
  rewrite fmap_cons. f_equal. apply queries_filter.
Qed.

Lemma addSearch_length query now searches :
  (length (addSearch query now searches) ≤ 10)%nat.
Proof. unfold addSearch. rewrite length_take. lia. Qed.

Lemma addSearch_NoDup query now searches :
  NoDup (se_query <$> searches) →
  NoDup (se_query <$> addSearch query now searches).
Proof.
  intros Hnd. rewrite addSearch_queries.
  eapply sublist_NoDup; [|apply sublist_take].
  apply NoDup_cons. split.
  - intros Hin. by apply list_elem_of_filter in Hin as [Hne _].
  - by apply NoDup_filter.
Qed.

(** What holds of every state of the store. *)
Lemma searches_invariant searches :
  searches_reachable searches →
  NoDup (se_query <$> searches) ∧ (length searches ≤ 10)%nat.
Proof.
  induction 1 as [|query now searches _ [IHnd IHlen]|searches _ _].
  - split; [constructor | simpl; lia].
  - split; [by apply addSearch_NoDup | apply addSearch_length].
  - split; [constructor | simpl; lia].
Qed.

(** Filtering out a value that occurs once shortens the list by one. *)
Lemma filter_out_length (l : list string) query :
  NoDup l → query ∈ l →
  S (length (filter (λ q, q ≠ query) l)) = length l.
Proof.
  induction 1 as [|q l Hq Hnd IH]; intros Hin.
  - by apply elem_of_nil in Hin.
  - rewrite filter_cons. destruct (decide (q ≠ query)) as [Hne|Heq].
    + apply elem_of_cons in Hin as [->|Hin]; [done|].
      simpl. by rewrite IH.
    + apply dec_stable in Heq. subst q. simpl. f_equal.
      rewrite filter_all; [done|]. intros x Hx ->. done.
Qed.

(** C10: in every state of the recent-searches store and for every
    query, after [addSearch] the list has at most 10 entries, the added
    query is first, no query appears twice, and a query that was already
    present has moved to the front: the other queries keep their order
    and the list has not grown. *)
Theorem addSearch_bounded_unique_front query now searches :
  searches_reachable searches →
  let searches' := addSearch query now searches in
  (length searches' ≤ 10)%nat
  ∧ head searches' = Some (mkSearchEntry query now)
  ∧ NoDup (se_query <$> searches')
  ∧ (query ∈ se_query <$> searches →
     se_query <$> searches'
       = query :: filter (λ q, q ≠ query) (se_query <$> searches)
     ∧ length searches' = length searches).
Proof.
  intros Hreach. destruct (searches_invariant _ Hreach) as [Hnd Hlen].
  cbv zeta. split; [apply addSearch_length|]. split; [done|].
  split; [by apply addSearch_NoDup|].
  intros Hin.
  pose proof (filter_out_length _ _ Hnd Hin) as Hout.
  rewrite length_fmap in Hout.
  assert (se_query <$> addSearch query now searches
          = query :: filter (λ q, q ≠ query) (se_query <$> searches)) as Hq.
  { rewrite addSearch_queries. apply take_ge. simpl. lia. }
  split; [done|].
  rewrite <- (length_fmap se_query (addSearch query now searches)), Hq.
  simpl. rewrite Hout. done.
Qed.

Lemma addSearch_bounded_unique_front_witness :
  let searches :=
    addSearch "loft conversion" 20%N (addSearch "rear extension" 10%N []) in
  let searches' := addSearch "rear extension" 30%N searches in
  (length searches' ≤ 10)%nat
  ∧ head searches' = Some (mkSearchEntry "rear extension" 30%N)
  ∧ NoDup (se_query <$> searches')
  ∧ ("rear extension" ∈ se_query <$> searches →
     se_query <$> searches'
       = "rear extension"
         :: filter (λ q, q ≠ "rear extension") (se_query <$> searches)
     ∧ length searches' = length searches).
Proof.
  apply (addSearch_bounded_unique_front "rear extension" 30%N
           (addSearch "loft conversion" 20%N (addSearch "rear extension" 10%N []))).
  apply reach_addSearch, reach_addSearch, reach_initial.
Defined.

End RecentSearches.

(* --------------------------------------------------------------------- *)
(** ** Further properties of the strategies *)
(* --------------------------------------------------------------------- *)

Section Strategies.

Implicit Types (request : Request) (w : World) (cs : CacheStorage).












(** X4: the API and the navigation strategies always answer: whatever the
    request, the cache and the network, they return a response and never
    throw. *)
Theorem network_first_always_answers request w :
  (∃ r, (handleApiRequest request w).1 = Return r)
  ∧ (∃ r, (handleNavigationRequest request w).1 = Return r).
Proof.
  destruct (network_cases w) as [Hdown | (r & rest & Hup)]; split.
  - rewrite handleApiRequest_down by done. simpl.
    destruct (bool_decide _); eauto.
  - rewrite handleNavigationRequest_down by done. simpl.
    destruct (storage_match _ _); eauto.
  - rewrite (handleApiRequest_up _ _ _ _ Hup). simpl.
    destruct (_ && _ && ok r); eauto.
  - rewrite (handleNavigationRequest_up _ _ _ _ Hup). simpl.
    destruct (ok r); eauto.
Qed.

(** X5: the static-asset strategy never makes up a response: what it
    returns is the cached response or the answer of the network, and with
    neither of them it throws the network failure. *)
Theorem static_never_synthesizes request w :
  (∀ r, (handleStaticRequest request w).1 = Return r →
        storage_match (request_key request) (w_caches w) = Some r
        ∨ ∃ rest, w_network w = Responds r :: rest)
  ∧ (storage_match (request_key request) (w_caches w) = None →
     network_down w = true →
     (handleStaticRequest request w).1 = Throw FetchFailed
     ∧ w_caches (handleStaticRequest request w).2 = w_caches w).
Proof.
  split.
  - intros r0.
    destruct (storage_match (request_key request) (w_caches w)) as [c|] eqn:Hm.
    + rewrite (handleStaticRequest_hit _ _ _ Hm). simpl. intros [= ->]. by left.
    + destruct (network_cases w) as [Hdown | (r & rest & Hup)].
      * by rewrite handleStaticRequest_miss_down.
      * rewrite (handleStaticRequest_miss_up _ _ _ _ Hm Hup). simpl.
        destruct (ok r && _); simpl; intros [= ->]; right; eauto.
  - intros Hm Hdown. by rewrite handleStaticRequest_miss_down.
Qed.

Lemma static_never_synthesizes_witness :
  (handleStaticRequest script_get offline_world).1 = Throw FetchFailed
  ∧ w_caches (handleStaticRequest script_get offline_world).2
    = w_caches offline_world.
Proof.
  apply (proj2 (static_never_synthesizes script_get offline_world));
    reflexivity.
Defined.

(** X6: the answer to an API request outside the allow-list is never
    stored: the strategy leaves cache storage as it is. *)
Theorem api_route_off_allow_list_not_cached request w :
  existsb (λ route, includes route (req_pathname request)) API_CACHE_ROUTES = false →
  w_caches (handleApiRequest request w).2 = w_caches w.
Proof.
  intros Hroute.
  destruct (network_cases w) as [Hdown | (r & rest & Hup)].
  - rewrite handleApiRequest_down by done. simpl. by destruct (bool_decide _).
  - rewrite (handleApiRequest_up _ _ _ _ Hup). cbv zeta. by rewrite Hroute.
Qed.

Lemma api_route_off_allow_list_not_cached_witness :
  w_caches (handleApiRequest save_case_post
              (set_network [Responds created_201] offline_world)).2
  = w_caches (set_network [Responds created_201] offline_world).
Proof.
  apply (api_route_off_allow_list_not_cached save_case_post
           (set_network [Responds created_201] offline_world)).
  reflexivity.
Defined.

End Strategies.

(* --------------------------------------------------------------------- *)
(** ** Installation *)
(* --------------------------------------------------------------------- *)

Section Installation.

Implicit Types (w : World) (cs : CacheStorage) (reqs : list Request).

Lemma settled_fetch_run q w :
  settled_fetch q w =
  (Return (default NetworkDown (head (w_network w))),
   set_network (tail (w_network w)) (emit (EvFetch q) w)).
Proof.
  unfold settled_fetch. run_swm. unfold fetch.
  destruct w as [o cs d net lg sy]. simpl. by destruct net as [|[|r] rest].
Qed.

(** Fetching all the assets consumes one answer per request and only
    logs the requests. *)
Lemma fetch_all_run reqs w :
  fetch_all reqs w =
  (Return (answers (length reqs) (w_network w)),
   mkWorld (w_location_origin w) (w_caches w) (w_db w)
           (drop (length reqs) (w_network w))
           (w_log w ++ (EvFetch <$> reqs)) (w_sync w)).
Proof.
  revert w. induction reqs as [|q reqs IH]; intros w.
  - simpl. rewrite app_nil_r. by destruct w.
  - cbn [fetch_all]. unfold mbind at 1, SWM_bind at 1.
    rewrite settled_fetch_run.
    unfold mbind at 1, SWM_bind at 1. rewrite IH.
    unfold mret, SWM_ret. simpl.
    destruct (w_network w) as [|o rest]; simpl;
      rewrite ?drop_nil, <- app_assoc; done.
Qed.

Lemma addAll_rejects n net :
  all_answered_ok n net = false → addAll_accepts (answers n net) = None.
Proof.
  revert net. induction n as [|n IH]; intros net Hbad; [done|].
  simpl in Hbad. destruct net as [|[|r] net]; simpl; try done.
  destruct (ok r); simpl in *; [|done].
  destruct (negb (status r =? 206)); [|done]. by rewrite IH.
Qed.



Lemma storage_match_open key name cs :
  storage_match key (storage_open name cs) = storage_match key cs.
Proof.
  unfold storage_open. destruct (bool_decide _); [done|].
  induction cs as [|[n c] cs IH]; simpl.
  - by rewrite lookup_empty.
  - destruct (c !! key); [done|]. apply IH.
Qed.




Lemma append_inj_r (s a b : string) : s +:+ a = s +:+ b → a = b.
Proof. induction s as [|ch s IH]; simpl; [done|]. intros [= H]. by apply IH. Qed.


Lemma onInstall_unfold w :
  onInstall w =
  let reqs := url_request (w_location_origin w) <$> PRECACHE_ASSETS in
  let w1 :=
    mkWorld (w_location_origin w) (storage_open CACHE_NAME (w_caches w))
            (w_db w) (drop (length reqs) (w_network w))
            (w_log w ++ (EvFetch <$> reqs)) (w_sync w) in
  match addAll_accepts (answers (length reqs) (w_network w)) with
  | Some rs =>
      match for_of (zip reqs rs) (λ qr, cache_put CACHE_NAME qr.1 qr.2) w1 with
      | (Return _, w2) => skipWaiting w2
      | (Throw e, w2) => (Throw e, w2)
      end
  | None => (Throw TypeError, w1)
  end.
Proof.
  unfold onInstall, cache_addAll.
  unfold mbind at 1, SWM_bind at 1, caches_open at 1.
  unfold mbind at 1, SWM_bind at 1.
  unfold mbind at 1, SWM_bind at 1, location_origin at 1.
  unfold mbind at 1, SWM_bind at 1.
  rewrite fetch_all_run. cbv zeta.
  cbn [w_location_origin w_caches w_db w_network w_log w_sync set_caches].
  destruct (addAll_accepts _) as [rs|]; [|done].
  by destruct (for_of _ _ _) as [[[]|e] w2].
Qed.


(** X7: installation is all or nothing.  When one of the precache requests
    is not answered, or is answered with a status that is not ok, the
    installation fails, no response becomes retrievable that was not
    before, and the worker does not skip waiting: the run only fetched. *)
Theorem install_failure_stores_nothing w :
  all_answered_ok (length PRECACHE_ASSETS) (w_network w) = false →
  ∃ e w' fetched,
    onInstall w = (Throw e, w')
    ∧ (∀ key, storage_match key (w_caches w') = storage_match key (w_caches w))
    ∧ w_log w' = w_log w ++ (EvFetch <$> fetched).
Proof.
  intros Hbad. rewrite onInstall_unfold. cbv zeta.
  rewrite length_fmap. rewrite (addAll_rejects _ _ Hbad).
  exists TypeError. eexists.
  exists (url_request (w_location_origin w) <$> PRECACHE_ASSETS).
  split; [reflexivity|].
  cbn [w_log w_caches]. split; [|reflexivity].
  intros key. apply storage_match_open.
Qed.

Lemma install_failure_stores_nothing_witness :
  ∃ e w' fetched,
    onInstall (set_network [Responds page_200; Responds error_500] offline_world)
      = (Throw e, w')
    ∧ (∀ key, storage_match key (w_caches w')
              = storage_match key
                  (w_caches (set_network [Responds page_200; Responds error_500]
                               offline_world)))
    ∧ w_log w'
      = w_log (set_network [Responds page_200; Responds error_500] offline_world)
        ++ (EvFetch <$> fetched).
Proof.
  apply (install_failure_stores_nothing
           (set_network [Responds page_200; Responds error_500] offline_world)).
  reflexivity.
Defined.






End Installation.

(* --------------------------------------------------------------------- *)
(** ** Further properties of the queue and of its reconciliation *)
(* --------------------------------------------------------------------- *)

Section QueueAndSync.

Implicit Types (w : World) (db : Database) (items rows : list PendingAction).

Lemma filter_none {A} (P : A → Prop) `{!∀ x, Decision (P x)} (l : list A) :
  (∀ x, x ∈ l → ¬ P x) → filter P l = [].
Proof.
  induction l as [|a l IH]; intros Hnone; [done|].
  rewrite filter_cons_False by (apply Hnone; by left).
  apply IH. intros x Hx. apply Hnone. by right.
Qed.

Lemma keys_ascending_unique lo rows a b :
  keys_ascending lo rows → a ∈ rows → b ∈ rows → pa_id a = pa_id b → a = b.
Proof.
  revert lo. induction rows as [|c rows IH]; intros lo Hasc Ha Hb Heq.
  - by apply elem_of_nil in Ha.
  - destruct Hasc as [_ Hasc].
    apply elem_of_cons in Ha as [->|Ha]; apply elem_of_cons in Hb as [->|Hb].
    + done.
    + pose proof (keys_ascending_ge _ _ _ Hasc Hb). lia.
    + pose proof (keys_ascending_ge _ _ _ Hasc Ha). lia.
    + by eapply IH.
Qed.

Lemma keys_ascending_NoDup lo rows :
  keys_ascending lo rows → NoDup (pa_id <$> rows).
Proof.
  revert lo. induction rows as [|c rows IH]; intros lo Hasc; [constructor|].
  destruct Hasc as [_ Hasc]. rewrite fmap_cons. apply NoDup_cons. split.
  - intros Hin. apply list_elem_of_fmap in Hin as (b & Heq & Hb).
    pose proof (keys_ascending_ge _ _ _ Hasc Hb). lia.
  - by eapply IH.
Qed.

Lemma answered_listed items net id :
  id ∈ answered items net → ∃ a, a ∈ items ∧ pa_id a = id.
Proof.
  revert net. induction items as [|a items IH]; intros net Hin.
  - by apply elem_of_nil in Hin.
  - simpl in Hin. destruct net as [|[|r] net].
    + destruct (IH _ Hin) as (b & Hb & Hid). exists b. split; [by right|done].
    + destruct (IH _ Hin) as (b & Hb & Hid). exists b. split; [by right|done].
    + apply elem_of_cons in Hin as [->|Hin].
      * exists a. split; [by left|done].
      * destruct (IH _ Hin) as (b & Hb & Hid). exists b. split; [by right|done].
Qed.

Lemma drain_step_wf path w save :
  pending_wf (w_db w) → pending_wf (w_db (drain_step path w save)).
Proof.
  intros Hwf. unfold drain_step.
  destruct (w_network w) as [|[|r] rest]; try done.
  simpl. by apply delete_wf.
Qed.

Lemma drain_wf path items w :
  pending_wf (w_db w) → pending_wf (w_db (foldl (drain_step path) w items)).
Proof.
  revert w. induction items as [|a items IH]; intros w Hwf; [done|].
  simpl. apply IH. by apply drain_step_wf.
Qed.

(** X10: every operation on the queue keeps its invariant, and under the
    invariant no two queued actions have the same id. *)
Theorem pending_ids_stay_unique w :
  pending_wf (w_db w) →
  NoDup (pa_id <$> Idb.getAll (w_db w))
  ∧ (∀ type data now, pending_wf (w_db (queueOfflineAction type data now w).2))
  ∧ (∀ type id, pending_wf (w_db (removePendingAction tt type id w).2))
  ∧ pending_wf (w_db (syncSavedCases w).2)
  ∧ pending_wf (w_db (syncSearchHistory w).2).
Proof.
  intros Hwf. split; [|split; [|split; [|split]]].
  - destruct Hwf as [Hasc _]. by eapply keys_ascending_NoDup.
  - intros type data now. rewrite queueOfflineAction_db.
    by apply add_wf.
  - intros type id. simpl. by apply delete_wf.
  - rewrite syncSavedCases_run. simpl. by apply drain_wf.
  - rewrite syncSearchHistory_run. simpl. by apply drain_wf.
Qed.

Lemma pending_ids_stay_unique_witness :
  NoDup (pa_id <$> Idb.getAll (w_db two_queued)).
Proof.
  refine (proj1 (pending_ids_stay_unique two_queued _)).
  split; [vm_compute; repeat split; discriminate | repeat constructor].
Defined.

(** X11: a drain of the saved cases never removes a queued action of
    another kind, whatever the network answers. *)
Theorem sync_leaves_other_kinds w (kind : string) :
  pending_wf (w_db w) →
  kind ≠ "saved-cases" →
  (getPendingActions tt kind (syncSavedCases w).2).1
  = (getPendingActions tt kind w).1.
Proof.
  intros [Hasc _] Hkind. unfold getPendingActions, Idb.getAll. simpl. f_equal.
  rewrite syncSavedCases_pending, list_filter_filter.
  apply filter_ext_elem. intros b Hb. split; [tauto|].
  intros Hb_kind. split; [done|]. intros Hin.
  apply answered_listed in Hin as (a & Ha & Hid).
  apply list_elem_of_filter in Ha as [Ha_kind Ha].
  assert (a = b) as -> by (by eapply keys_ascending_unique).
  congruence.
Qed.

Lemma sync_leaves_other_kinds_witness :
  (getPendingActions tt "search-history" (syncSavedCases mixed_queue).2).1
  = (getPendingActions tt "search-history" mixed_queue).1.
Proof.
  apply (sync_leaves_other_kinds mixed_queue "search-history").
  - split; [vm_compute; repeat split; discriminate | repeat constructor].
  - discriminate.
Defined.

Lemma drain_db_down path items w :
  Forall (λ o, o = NetworkDown) (w_network w) →
  w_db (foldl (drain_step path) w items) = w_db w.
Proof.
  revert w. induction items as [|a items IH]; intros w Hdown; [done|].
  simpl. unfold drain_step at 2.
  destruct (w_network w) as [|[|r] rest] eqn:Hnet.
  - rewrite IH; [done|]. simpl. by rewrite Hnet.
  - rewrite IH; [done|]. simpl. by apply Forall_cons in Hdown as [_ ?].
  - by apply Forall_cons in Hdown as [? _].
Qed.

(** X12: while the network rejects every request, a sync leaves the whole
    database as it is: nothing is dequeued. *)
Theorem sync_offline_keeps_queue w :
  Forall (λ o, o = NetworkDown) (w_network w) →
  w_db (syncSavedCases w).2 = w_db w
  ∧ w_db (syncSearchHistory w).2 = w_db w.
Proof.
  intros Hdown. rewrite syncSavedCases_run, syncSearchHistory_run. simpl.
  split; by apply drain_db_down.
Qed.

Lemma sync_offline_keeps_queue_witness :
  w_db (syncSavedCases (set_network [NetworkDown; NetworkDown] two_queued)).2
  = w_db (set_network [NetworkDown; NetworkDown] two_queued).
Proof.
  refine (proj1 (sync_offline_keeps_queue
                   (set_network [NetworkDown; NetworkDown] two_queued) _)).
  repeat constructor.
Defined.

Lemma drain_all_answered path items (rs : list Response) rest w :
  length rs = length items →
  w_network w = (Responds <$> rs) ++ rest →
  w_network (foldl (drain_step path) w items) = rest
  ∧ answered items (w_network w) = pa_id <$> items.
Proof.
  revert rs w. induction items as [|a items IH]; intros rs w Hlen Hnet.
  - destruct rs; [|done]. by rewrite Hnet.
  - destruct rs as [|r rs]; [done|].
    rewrite fmap_cons, <- app_comm_cons in Hnet.
    destruct (IH rs (drain_step path w a)) as [Hrest Hans].
    + by injection Hlen.
    + unfold drain_step. by rewrite Hnet.
    + simpl. split; [done|]. rewrite Hnet. f_equal.
      etrans; [|exact Hans]. unfold drain_step. by rewrite Hnet.
Qed.

(** X13: when the network answers every replay, the drain of the saved
    cases posts each queued payload once, in the order of the queue, to
    the saved-cases endpoint, consumes one answer per item, and leaves no
    saved case in the queue. *)
Theorem sync_replays_queue_in_order (rs : list Response) rest w :
  let items := filter (λ a, pa_type a = "saved-cases") (Idb.getAll (w_db w)) in
  length rs = length items →
  w_network w = (Responds <$> rs) ++ rest →
  let w' := (syncSavedCases w).2 in
  w_log w' =
    w_log w
    ++ ((λ a, EvFetch (post_request (w_location_origin w)
                         "/api/v1/users/saved-cases" (pa_data a))) <$> items)
  ∧ w_network w' = rest
  ∧ (getPendingActions tt "saved-cases" w').1 = Return [].
Proof.
  intros items Hlen Hnet w'. subst w'.
  rewrite syncSavedCases_run.
  cbn [snd]. fold items.
  destruct (drain_all_answered "/api/v1/users/saved-cases" items rs rest w
              Hlen Hnet) as [Hrest Hans].
  split; [apply drain_attempts_every_item|]. split; [done|].
  unfold getPendingActions, Idb.getAll. simpl. f_equal.
  rewrite drain_pending, Hans, list_filter_filter.
  apply filter_none. intros b Hb [Hkind Hnot].
  apply Hnot. apply list_elem_of_fmap. exists b. split; [done|].
  unfold items, Idb.getAll. by apply list_elem_of_filter.
Qed.

Lemma sync_replays_queue_in_order_witness :
  let w' := (syncSavedCases two_queued).2 in
  w_log w' =
    w_log two_queued
    ++ ((λ a, EvFetch (post_request (w_location_origin two_queued)
                         "/api/v1/users/saved-cases" (pa_data a)))
          <$> filter (λ a, pa_type a = "saved-cases")
                     (Idb.getAll (w_db two_queued)))
  ∧ w_network w' = []
  ∧ (getPendingActions tt "saved-cases" w').1 = Return [].
Proof.
  apply (sync_replays_queue_in_order [error_500; created_201] [] two_queued);
    reflexivity.
Defined.

Lemma insert_by_key_elem a rows : a ∈ Idb.insert_by_key a rows.
Proof.
  induction rows as [|b rows IH]; simpl; [by left|].
  destruct (pa_id a <? pa_id b)%N; [by left | by right].
Qed.

(** X14: the worker replays two kinds only.  An action queued under any
    other type is stored; its sync tag is registered exactly when the
    browser's background sync registers it, and nothing is registered
    where sync is unsupported or the registration fails; the sync
    listener ignores that tag in every state, so the action stays
    queued. *)
Theorem sync_tag_of_other_type_ignored (type data : string) (now : N) w :
  type ≠ "saved-cases" → type ≠ "search-history" →
  let w1 := (queueOfflineAction type data now w).2 in
  mkPendingAction (db_key_generator (w_db w)) type data now
    ∈ Idb.getAll (w_db w1)
  ∧ (w_sync w = SyncRegisters →
     appended w w1 [EvSyncRegister ("sync-" +:+ type)])
  ∧ (w_sync w ≠ SyncRegisters → appended w w1 [])
  ∧ (∀ w', onSync ("sync-" +:+ type) w' = (Return tt, w'))
  ∧ Idb.getAll (w_db (onSync ("sync-" +:+ type) w1).2) = Idb.getAll (w_db w1).
Proof.
  intros Hsaved Hsearch.
  assert (∀ w', onSync ("sync-" +:+ type) w' = (Return tt, w')) as Hignored.
  { intros w'. unfold onSync. rewrite !bool_decide_eq_false_2.
    - reflexivity.
    - intros Heq. apply Hsaved.
      by apply (append_inj_r "sync-" type "saved-cases").
    - intros Heq. apply Hsearch.
      by apply (append_inj_r "sync-" type "search-history"). }
  cbv zeta. split; [|split; [|split; [|split]]].
  - rewrite queueOfflineAction_db. apply insert_by_key_elem.
  - intros Hsync. rewrite queueOfflineAction_run. cbv zeta. by rewrite Hsync.
  - intros Hsync. rewrite queueOfflineAction_run. cbv zeta.
    unfold appended. rewrite app_nil_r. by destruct (w_sync w).
  - exact Hignored.
  - by rewrite Hignored.
Qed.

Lemma sync_tag_of_other_type_ignored_witness :
  let w1 := (queueOfflineAction "saved-case-create" "{'case_reference':'2023/0003/P'}"
               30%N two_queued).2 in
  mkPendingAction (db_key_generator (w_db two_queued)) "saved-case-create"
                  "{'case_reference':'2023/0003/P'}" 30%N
    ∈ Idb.getAll (w_db w1)
  ∧ (w_sync two_queued = SyncRegisters →
     appended two_queued w1 [EvSyncRegister ("sync-" +:+ "saved-case-create")])
  ∧ (w_sync two_queued ≠ SyncRegisters → appended two_queued w1 [])
  ∧ (∀ w', onSync ("sync-" +:+ "saved-case-create") w' = (Return tt, w'))
  ∧ Idb.getAll (w_db (onSync ("sync-" +:+ "saved-case-create") w1).2)
    = Idb.getAll (w_db w1).
Proof.
  apply (sync_tag_of_other_type_ignored "saved-case-create"
           "{'case_reference':'2023/0003/P'}" 30%N two_queued); discriminate.
Defined.

End QueueAndSync.

(* --------------------------------------------------------------------- *)
(** ** Notifications, continued *)
(* --------------------------------------------------------------------- *)

Section Notifications.

Implicit Types (w : World).

Lemma or_default_nonempty v d : d ≠ EmptyString → or_default v d ≠ EmptyString.
Proof.
  intros Hd. unfold or_default. destruct v as [s|]; [|done].
  destruct (bool_decide (s = EmptyString)) eqn:Hs; [done|].
  by apply bool_decide_eq_false in Hs.
Qed.

(** X15: a push event either displays exactly one notification, which always
    has an icon, a badge and the fixed vibration pattern, or, when its
    payload is the JSON value null, throws a TypeError and displays
    nothing. *)
Theorem push_shows_one_complete_notification
    (event_data : option PushMessageData) w :
  (∃ d, event_data = Some d ∧ pmd_json d = Some JsNull
        ∧ onPush event_data w = (Throw TypeError, w))
  ∨ (∃ n, onPush event_data w = (Return tt, emit (EvShowNotification n) w)
          ∧ n_icon n ≠ EmptyString
          ∧ n_badge n ≠ EmptyString
          ∧ n_vibrate n = [100; 50; 100]%N).
Proof.
  destruct event_data as [[[[|o]|] text]|].
  - left. eexists. by repeat split.
  - right. eexists. split; [apply push_json_object|]. simpl.
    split; [by apply or_default_nonempty|].
    split; [by apply or_default_nonempty|done].
  - right. eexists. split; [apply push_plain_text|]. by repeat split.
  - right. eexists. split; [apply push_without_payload|]. by repeat split.
Qed.

Lemma find_first {A} (f : A → bool) (before : list A) x after :
  f x = true → (∀ y, y ∈ before → f y = false) →
  List.find f (before ++ x :: after) = Some x.
Proof.
  intros Hx. induction before as [|b before IH]; intros Hbefore; simpl.
  - by rewrite Hx.
  - rewrite (Hbefore b) by (by left). apply IH.
    intros y Hy. apply Hbefore. by right.
Qed.

Lemma find_nothing {A} (f : A → bool) (l : list A) :
  (∀ y, y ∈ l → f y = false) → List.find f l = None.
Proof.
  induction l as [|b l IH]; intros Hl; simpl; [done|].
  rewrite (Hl b) by (by left). apply IH. intros y Hy. apply Hl. by right.
Qed.

(** X16: a click on a notification closes it and then does exactly one
    of two things: when some focusable client shows the target URL, the
    first such client is focused and no window is opened; when none does,
    a window is opened on the target URL, provided the browser can open
    one.  The target URL is never empty: without a URL in the
    notification it is the root. *)
Theorem notification_click_focus_or_open (data_url : option string)
    (clients : list WindowClient) (can_open : bool) :
  let target := or_default data_url "/" in
  let effects := onNotificationClick data_url clients can_open in
  let shows client := wc_url client = target ∧ wc_can_focus client = true in
  head effects = Some EffClose
  ∧ target ≠ EmptyString
  ∧ (∀ before client after,
       clients = before ++ client :: after →
       shows client →
       (∀ other, other ∈ before → ¬ shows other) →
       effects = [EffClose; EffFocus client])
  ∧ ((∀ client, client ∈ clients → ¬ shows client) →
     effects = EffClose :: (if can_open then [EffOpenWindow target] else [])).
Proof.
  cbv zeta. split; [done|]. split; [by apply or_default_nonempty|].
  unfold onNotificationClick. cbv zeta. split.
  - intros before client after -> [Hurl Hfocus] Hbefore.
    rewrite find_first; [done| |].
    + by rewrite Hfocus, bool_decide_eq_true_2.
    + intros y Hy. apply andb_false_iff.
      destruct (wc_can_focus y) eqn:Hf; [|by right]. left.
      apply bool_decide_eq_false. intros Hu. by apply (Hbefore y Hy).
  - intros Hnone. rewrite find_nothing; [done|].
    intros y Hy. apply andb_false_iff.
    destruct (wc_can_focus y) eqn:Hf; [|by right]. left.
    apply bool_decide_eq_false. intros Hu. by apply (Hnone y Hy).
Qed.

Lemma notification_click_focus_or_open_witness :
  onNotificationClick (Some "/cases/1")
    [mkWindowClient "/" true; mkWindowClient "/cases/1" true;
     mkWindowClient "/cases/1" true] false
  = [EffClose; EffFocus (mkWindowClient "/cases/1" true)].
Proof.
  refine (proj1 (proj2 (proj2
            (notification_click_focus_or_open (Some "/cases/1")
               [mkWindowClient "/" true; mkWindowClient "/cases/1" true;
                mkWindowClient "/cases/1" true] false)))
            [mkWindowClient "/" true] (mkWindowClient "/cases/1" true)
            [mkWindowClient "/cases/1" true] _ _ _).
  - reflexivity.
  - split; reflexivity.
  - intros other Hin [Hurl _]. apply list_elem_of_singleton in Hin.
    subst other. discriminate.
Defined.

End Notifications.

(* --------------------------------------------------------------------- *)
(** ** The page side: VAPID key, cached searches, install prompt *)
(* --------------------------------------------------------------------- *)

Section PageSide.

Lemma length_append (a b : string) :
  String.length (a +:+ b) = (String.length a + String.length b)%nat.
Proof. induction a as [|ch a IH]; simpl; [done|]. f_equal. exact IH. Qed.

Lemma length_repeat_char (ch : ascii) n :
  String.length (repeat_string (String ch EmptyString) n) = n.
Proof. induction n as [|n IH]; simpl; [done|]. f_equal. exact IH. Qed.

Lemma length_replace_all a b s :
  String.length (replace_all a b s) = String.length s.
Proof. induction s as [|ch s IH]; simpl; [done|]. by rewrite IH. Qed.

Lemma replace_all_removes a b s ch :
  a ≠ b → ch ∈ String.list_ascii_of_string (replace_all a b s) → ch ≠ a.
Proof.
  intros Hab. induction s as [|c s IH]; simpl; intros Hin.
  - by apply elem_of_nil in Hin.
  - apply elem_of_cons in Hin as [->|Hin]; [|by apply IH].
    destruct (bool_decide (c = a)) eqn:Hc; [congruence|].
    by apply bool_decide_eq_false in Hc.
Qed.

Lemma replace_all_keeps_out a b c s ch :
  c ≠ b →
  (∀ x, x ∈ String.list_ascii_of_string s → x ≠ c) →
  ch ∈ String.list_ascii_of_string (replace_all a b s) → ch ≠ c.
Proof.
  intros Hcb. induction s as [|x s IH]; simpl; intros Hs Hin.
  - by apply elem_of_nil in Hin.
  - apply elem_of_cons in Hin as [->|Hin].
    + destruct (bool_decide (x = a)); [congruence|]. apply Hs. by left.
    + apply IH; [|done]. intros y Hy. apply Hs. by right.
Qed.

Lemma replace_all_absent a b s :
  (∀ x, x ∈ String.list_ascii_of_string s → x ≠ a) → replace_all a b s = s.
Proof.
  induction s as [|x s IH]; simpl; intros Hs; [done|].
  rewrite bool_decide_eq_false_2 by (apply Hs; by left).
  f_equal. apply IH. intros y Hy. apply Hs. by right.
Qed.

Lemma append_empty_r (s : string) : s +:+ EmptyString = s.
Proof.
  induction s as [|ch s IH]; [done|].
  change (String ch (s +:+ EmptyString) = String ch s). by f_equal.
Qed.

Lemma pad_to_multiple (n : nat) : ((n + (4 - n mod 4) mod 4) mod 4 = 0)%nat.
Proof.
  pose proof (Nat.mod_upper_bound n 4 ltac:(lia)) as Hlt.
  rewrite (Nat.div_mod_eq n 4) at 1.
  remember (n mod 4)%nat as m. remember (n / 4)%nat as d. clear Heqm Heqd.
  assert (m = 0 ∨ m = 1 ∨ m = 2 ∨ m = 3)%nat as Hm by lia.
  destruct Hm as [-> | [-> | [-> | ->]]].
  - change ((4 - 0) mod 4)%nat with 0%nat.
    replace (4 * d + 0 + 0)%nat with (0 + d * 4)%nat by lia.
    by rewrite Nat.Div0.mod_add.
  - change ((4 - 1) mod 4)%nat with 3%nat.
    replace (4 * d + 1 + 3)%nat with (0 + (d + 1) * 4)%nat by lia.
    by rewrite Nat.Div0.mod_add.
  - change ((4 - 2) mod 4)%nat with 2%nat.
    replace (4 * d + 2 + 2)%nat with (0 + (d + 1) * 4)%nat by lia.
    by rewrite Nat.Div0.mod_add.
  - change ((4 - 3) mod 4)%nat with 1%nat.
    replace (4 * d + 3 + 1)%nat with (0 + (d + 1) * 4)%nat by lia.
    by rewrite Nat.Div0.mod_add.
Qed.

(** X17: whatever the key, the string handed to [atob] has a length that is
    a multiple of 4 and contains neither [-] nor [_]; a key that already
    has such a length and no such character is handed over unchanged. *)
Theorem vapid_key_normalised (base64String : string) :
  (String.length (base64_of_url base64String) mod 4 = 0)%nat
  ∧ (∀ ch, ch ∈ String.list_ascii_of_string (base64_of_url base64String) →
           ch ≠ "-"%char ∧ ch ≠ "_"%char)
  ∧ ((String.length base64String mod 4 = 0)%nat →
     (∀ ch, ch ∈ String.list_ascii_of_string base64String →
            ch ≠ "-"%char ∧ ch ≠ "_"%char) →
     base64_of_url base64String = base64String).
Proof.
  unfold base64_of_url. cbv zeta. split; [|split].
  - rewrite !length_replace_all, length_append.
    rewrite (length_repeat_char "="%char).
    apply pad_to_multiple.
  - intros ch Hin. split.
    + eapply (replace_all_keeps_out "_"%char "/"%char "-"%char);
        [discriminate| |exact Hin].
      intros x Hx.
      eapply (replace_all_removes "-"%char "+"%char); [discriminate|exact Hx].
    + eapply (replace_all_removes "_"%char "/"%char); [discriminate|exact Hin].
  - intros Hlen Hchars. rewrite Hlen. simpl. rewrite append_empty_r.
    rewrite (replace_all_absent "-"%char) by (intros x Hx; by apply Hchars).
    apply replace_all_absent. intros x Hx. by apply Hchars.
Qed.

Lemma vapid_key_normalised_witness :
  base64_of_url "BEl6+abc" = "BEl6+abc".
Proof.
  apply (proj2 (proj2 (vapid_key_normalised "BEl6+abc"))).
  - reflexivity.
  - intros ch Hin. vm_compute in Hin.
    repeat (apply elem_of_cons in Hin as [->|Hin]; [by split|]).
    by apply elem_of_nil in Hin.
Defined.

(** X18: the cached results of a query are the ones stored last for it;
    storing results for one query leaves those of every other query as
    they were; a query never stored has no cached results. *)
Theorem cached_search_round_trip (query : string) (results : list string)
    (now : N) (store : gmap string CachedSearch) :
  getCachedSearchResults query (cacheSearchResults query results now store)
  = Some results
  ∧ (∀ other, other ≠ query →
       getCachedSearchResults other (cacheSearchResults query results now store)
       = getCachedSearchResults other store)
  ∧ getCachedSearchResults query ∅ = None.
Proof.
  unfold getCachedSearchResults, cacheSearchResults. split; [|split].
  - by rewrite lookup_insert_eq.
  - intros other Hne. by rewrite lookup_insert_ne.
  - by rewrite lookup_empty.
Qed.

Lemma cached_search_round_trip_witness :
  getCachedSearchResults "loft"
    (cacheSearchResults "basement" ["2023/0002/P"] 20%N
       (cacheSearchResults "loft" ["2023/0001/P"] 10%N ∅))
  = getCachedSearchResults "loft" (cacheSearchResults "loft" ["2023/0001/P"] 10%N ∅).
Proof.
  apply (proj1 (proj2 (cached_search_round_trip "basement" ["2023/0002/P"] 20%N
                         (cacheSearchResults "loft" ["2023/0001/P"] 10%N ∅)))).
  discriminate.
Defined.

(** X19: the install prompt can be used once.  After [showInstallPrompt]
    no prompt can be shown and a second call returns false, until the
    browser offers a new one; the call returns true only when a prompt
    was available and the user accepted it; and no prompt can be shown
    once the application is installed. *)
Theorem install_prompt_single_use (deferredPrompt : DeferredPrompt) :
  let shown := showInstallPrompt deferredPrompt in
  canShowInstallPrompt shown.2 = false
  ∧ (showInstallPrompt shown.2).1 = false
  ∧ (shown.1 = true ↔ deferredPrompt = Some Accepted)
  ∧ canShowInstallPrompt (on_appinstalled deferredPrompt) = false
  ∧ ∀ e, canShowInstallPrompt (on_beforeinstallprompt e shown.2) = true.
Proof.
  destruct deferredPrompt as [[|]|]; simpl; repeat split; try done.
Qed.

End PageSide.

(* --------------------------------------------------------------------- *)
(** ** The stores, continued *)
(* --------------------------------------------------------------------- *)

Section Stores.

Implicit Types (cases : list PlanningDecision) (searches : list SearchEntry)
  (w : World).

(** X20: saving a case for offline use touches nothing but the saved-cases
    store: the queue of pending actions, cache storage, the network and
    the log stay as they are, and so does the record of every other
    reference.  Case data without a reference is refused with a DataError
    and nothing is stored. *)
Theorem saveCaseOffline_touches_one_record (caseData : CaseData) (now : N) w :
  let run := saveCaseOffline caseData now w in
  db_pending (w_db run.2) = db_pending (w_db w)
  ∧ db_key_generator (w_db run.2) = db_key_generator (w_db w)
  ∧ w_caches run.2 = w_caches w
  ∧ w_network run.2 = w_network w
  ∧ w_log run.2 = w_log w
  ∧ (cd_reference caseData = None → run = (Throw DataError, w))
  ∧ (∀ reference, cd_reference caseData ≠ Some reference →
       db_saved_cases (w_db run.2) !! reference
       = db_saved_cases (w_db w) !! reference).
Proof.
  unfold saveCaseOffline.
  destruct (cd_reference caseData) as [ref|]; simpl; repeat split; try done.
  intros reference Hne. apply lookup_insert_ne. congruence.
Qed.

Lemma saveCaseOffline_touches_one_record_witness :
  saveCaseOffline (mkCaseData None "{'case_reference':'2023/1234/P'}") 10%N
                  two_queued
  = (Throw DataError, two_queued).
Proof.
  refine (proj1 (proj2 (proj2 (proj2 (proj2 (proj2
            (saveCaseOffline_touches_one_record
               (mkCaseData None "{'case_reference':'2023/1234/P'}") 10%N
               two_queued)))))) _).
  reflexivity.
Defined.

Lemma removeCase_not_saved (caseRef : string) cases :
  caseRef ∉ case_reference <$> cases → removeCase caseRef cases = cases.
Proof.
  intros Hnot. unfold removeCase. apply filter_all.
  intros c Hc Heq. apply Hnot. apply list_elem_of_fmap. by exists c.
Qed.

(** X21: a case that was added is saved; a case that was removed is not;
    removing a case that is not saved changes nothing; and adding a case
    that was not saved and removing it again gives back the list. *)
Theorem saved_cases_add_remove (decision : PlanningDecision) (caseRef : string)
    cases :
  isSaved (case_reference decision) (addCase decision cases) = true
  ∧ isSaved caseRef (removeCase caseRef cases) = false
  ∧ (isSaved caseRef cases = false → removeCase caseRef cases = cases)
  ∧ (isSaved (case_reference decision) cases = false →
     removeCase (case_reference decision) (addCase decision cases) = cases).
Proof.
  split; [|split; [|split]].
  - apply isSaved_spec.
    destruct (decide (case_reference decision ∈ case_reference <$> cases))
      as [Hin|Hnot].
    + by rewrite addCase_known.
    + rewrite addCase_new, fmap_app by done.
      apply elem_of_app. right. by left.
  - apply not_true_is_false. intros Hsaved. apply isSaved_spec in Hsaved.
    apply list_elem_of_fmap in Hsaved as (c & Heq & Hc).
    unfold removeCase in Hc. by apply list_elem_of_filter in Hc as [Hne _].
  - intros Hnot. apply removeCase_not_saved.
    intros Hin. apply isSaved_spec in Hin. congruence.
  - intros Hnot.
    assert (case_reference decision ∉ case_reference <$> cases) as Hnot'
      by (intros Hin; apply isSaved_spec in Hin; congruence).
    rewrite addCase_new by done. unfold removeCase.
    rewrite filter_app. rewrite filter_cons_False by (intros Hne; by apply Hne).
    rewrite filter_nil, app_nil_r. by apply removeCase_not_saved.
Qed.

Lemma saved_cases_add_remove_witness :
  removeCase (case_reference decision_v1) (addCase decision_v1 []) = [].
Proof.
  refine (proj2 (proj2 (proj2
            (saved_cases_add_remove decision_v1 "2023/1234/P" []))) _).
  reflexivity.
Defined.

(** X22: toggling a precedent flips its selection and that of no other
    case, and keeps a selection without repeats free of repeats. *)
Theorem togglePrecedent_flips (caseRef : string) (selected : list string) :
  (caseRef ∈ togglePrecedent caseRef selected ↔ caseRef ∉ selected)
  ∧ (∀ other, other ≠ caseRef →
       other ∈ togglePrecedent caseRef selected ↔ other ∈ selected)
  ∧ (NoDup selected → NoDup (togglePrecedent caseRef selected)).
Proof.
  unfold togglePrecedent.
  destruct (bool_decide (caseRef ∈ selected)) eqn:Hin.
  - apply bool_decide_eq_true in Hin. split; [|split].
    + rewrite list_elem_of_filter. tauto.
    + intros other Hne. rewrite list_elem_of_filter. tauto.
    + by apply NoDup_filter.
  - apply bool_decide_eq_false in Hin. split; [|split].
    + rewrite elem_of_app, list_elem_of_singleton. tauto.
    + intros other Hne. rewrite elem_of_app, list_elem_of_singleton. tauto.
    + intros Hnd. apply NoDup_app. split; [done|]. split; [|apply NoDup_singleton].
      intros x Hx Hx'. apply list_elem_of_singleton in Hx'. by subst.
Qed.

Lemma togglePrecedent_flips_witness :
  NoDup (togglePrecedent "2023/0002/P" ["2023/0001/P"; "2023/0002/P"]).
Proof.
  refine (proj2 (proj2 (togglePrecedent_flips "2023/0002/P"
                          ["2023/0001/P"; "2023/0002/P"])) _).
  apply NoDup_cons. split.
  - intros Hin. apply list_elem_of_singleton in Hin. discriminate.
  - apply NoDup_singleton.
Defined.

(** X23: toggling twice a case that was not selected gives back the
    selection; toggling twice a selected case of a selection without
    repeats gives the same cases, the toggled one moved to the end. *)
Theorem togglePrecedent_twice (caseRef : string) (selected : list string) :
  (caseRef ∉ selected →
   togglePrecedent caseRef (togglePrecedent caseRef selected) = selected)
  ∧ (caseRef ∈ selected →
     togglePrecedent caseRef (togglePrecedent caseRef selected)
     = filter (λ ref, ref ≠ caseRef) selected ++ [caseRef]).
Proof.
  split; intros Hin.
  - unfold togglePrecedent at 2. rewrite bool_decide_eq_false_2 by done.
    unfold togglePrecedent. rewrite bool_decide_eq_true_2
      by (apply elem_of_app; right; by left).
    rewrite filter_app. rewrite filter_cons_False by (intros Hne; by apply Hne).
    rewrite filter_nil, app_nil_r. apply filter_all. intros x Hx ->. done.
  - unfold togglePrecedent at 2. rewrite bool_decide_eq_true_2 by done.
    unfold togglePrecedent. rewrite bool_decide_eq_false_2; [done|].
    intros Hin'. by apply list_elem_of_filter in Hin' as [Hne _].
Qed.

Lemma togglePrecedent_twice_witness :
  togglePrecedent "2023/0002/P" (togglePrecedent "2023/0002/P" ["2023/0001/P"])
  = ["2023/0001/P"].
Proof.
  refine (proj1 (togglePrecedent_twice "2023/0002/P" ["2023/0001/P"]) _).
  intros Hin. apply list_elem_of_singleton in Hin. discriminate.
Defined.

(** X24: a query that is not among the recent searches goes to the front
    and the previous entries follow unchanged, in their order, except that
    only the first 9 of them are kept: of a full list the oldest entry is
    dropped. *)
Theorem addSearch_new_query_drops_oldest (query : string) (now : N) searches :
  query ∉ se_query <$> searches →
  addSearch query now searches = mkSearchEntry query now :: take 9 searches.
Proof.
  intros Hnew. unfold addSearch. rewrite filter_all; [done|].
  intros s Hs Heq. apply Hnew. apply list_elem_of_fmap. by exists s.
Qed.

Lemma addSearch_new_query_drops_oldest_witness :
  addSearch "basement" 30%N
    (addSearch "loft conversion" 20%N (addSearch "rear extension" 10%N []))
  = mkSearchEntry "basement" 30%N
    :: take 9 (addSearch "loft conversion" 20%N
                 (addSearch "rear extension" 10%N [])).
Proof.
  apply (addSearch_new_query_drops_oldest "basement" 30%N
           (addSearch "loft conversion" 20%N (addSearch "rear extension" 10%N []))).
  vm_compute. intros Hin.
  apply elem_of_cons in Hin as [?|Hin]; [discriminate|].
  apply list_elem_of_singleton in Hin. discriminate.
Defined.

End Stores.
